(** * train_helper: bookkeeping for a sequence-labelling training loop

    A shallow embedding of [src/train_helper.py]: the running-mean
    [tracker], the [experiment] directory context, the [prior_buffer]
    cache and the two metric reporters.

    Conventions of the embedding.
    - Python objects are records; a method takes the object as [self]
      and returns the updated object.
    - A call that raises returns [Raise e].  An exception ends the run
      (nothing in this module catches one), so the state a failed call
      leaves behind is not represented.
    - Python [int]s are [Z]; Python and numpy floating-point numbers are
      exact rationals ([Qc]): rounding is not represented.
    - A [dict] is a [gmap]; a dict handed over for iteration is the list
      of its items in iteration order. *)

From Stdlib Require Import QArith Qcanon Sorted.
From stdpp Require Import base numbers list strings gmap pretty.

Open Scope Z_scope.

(** ** Exceptions and fallible calls *)

Inductive exn : Type :=
  | AssertionError
  | AttributeError
  | FileExistsError
  | FileNotFoundError
  | IndexError
  | KeyError
  | SyntaxError
  | TypeError
  | ValueError
  | ZeroDivisionError
  | OSError.

#[global] Instance exn_eq_dec : EqDecision exn.
Proof. solve_decision. Defined.

Inductive result (A : Type) : Type :=
  | Ok (a : A)
  | Raise (e : exn).
Arguments Ok {A} a.
Arguments Raise {A} e.

#[global] Instance result_ret : MRet result := λ A a, Ok a.
#[global] Instance result_bind : MBind result := λ A B f m,
  match m with
  | Ok a => f a
  | Raise e => Raise e
  end.

Definition succeeds {A} (m : result A) : Prop := ∃ a, m = Ok a.

(** [for x in xs: s = body(s, x)], stopping at the first exception. *)
Fixpoint for_each {S X : Type} (body : S → X → result S) (xs : list X) (s : S)
    : result S :=
  match xs with
  | [] => Ok s
  | x :: xs' => s' ← body s x; for_each body xs' s'
  end.

(** [assert cond] *)
Definition py_assert (cond : bool) : result unit :=
  if cond then Ok () else Raise AssertionError.

(** [a % b] on Python integers: the remainder has the sign of [b]. *)
Definition py_mod (a b : Z) : result Z :=
  if decide (b = 0) then Raise ZeroDivisionError else Ok (a `mod` b).

(** [xs[i]] on a Python list, for an index that is not negative. *)
Definition py_index {A} (xs : list A) (i : Z) : result A :=
  match xs !! Z.to_nat i with
  | Some x => Ok x
  | None => Raise IndexError
  end.

(** ** tracker *)

Module Tracker.

Record tracker : Type := mk_tracker {
  names : list string;
  values : gmap string Qc;
  counter : Qc;
  create_time : Qc
}.

(** [dict({name: 0. for name in names})] *)
Definition zero_values (names : list string) : gmap string Qc :=
  foldl (λ d name, <[name := 0%Qc]> d) ∅ names.

(** [reset]; [now] is the reading of [time.time()]. *)
Definition reset (self : tracker) (now : Qc) : tracker :=
  {| names := names self;
     values := zero_values (names self);
     counter := 0%Qc;
     create_time := now |}.

(** [__init__]: the [auto_init_args] decorator stores the argument in
    [self.names] before the body runs. *)
Definition init (names : list string) (now : Qc) : result tracker :=
  _ ← py_assert (bool_decide (0 < length names)%nat);
  Ok (reset {| names := names; values := ∅; counter := 0%Qc;
               create_time := 0%Qc |} now).

(** [__getitem__]: [values.get(name, 0) / counter if counter else 0] *)
Definition getitem (self : tracker) (name : string) : Qc :=
  if bool_decide (counter self ≠ 0%Qc)
  then (default 0 (values self !! name) / counter self)%Qc
  else 0%Qc.

(** [__len__] *)
Definition len (self : tracker) : nat := length (names self).

(** One iteration of the loop of [update]:
    [self.values[name] += value * count]. *)
Definition add_value (count : Qc) (self : tracker) (item : string * Qc)
    : result tracker :=
  match values self !! item.1 with
  | Some old =>
      Ok {| names := names self;
            values := <[item.1 := (old + item.2 * count)%Qc]> (values self);
            counter := counter self;
            create_time := create_time self |}
  | None => Raise KeyError
  end.

(** [update(named_values, count)] *)
Definition update (self : tracker) (named_values : list (string * Qc))
    (count : Qc) : result tracker :=
  let self1 := {| names := names self;
                  values := values self;
                  counter := (counter self + count)%Qc;
                  create_time := create_time self |} in
  for_each (add_value count) named_values self1.

(** [stats] *)
Definition stats (self : tracker) : gmap string Qc :=
  (λ v, if bool_decide (counter self ≠ 0%Qc) then (v / counter self)%Qc
        else 0%Qc) <$> values self.

(** A sequence of [update] calls, each given by its arguments. *)
Definition updates (self : tracker) (calls : list (list (string * Qc) * Qc))
    : result tracker :=
  for_each (λ s call, update s call.1 call.2) calls self.

(** The value a dict with items [nv] holds for [name]. *)
Definition dict_get (nv : list (string * Qc)) (name : string) : option Qc :=
  (list_to_map nv : gmap string Qc) !! name.

(** Sums as the specification writes them. *)
Fixpoint weighted_sum (vcs : list (Qc * Qc)) : Qc :=
  match vcs with
  | [] => 0
  | vc :: rest => vc.1 * vc.2 + weighted_sum rest
  end%Qc.

Fixpoint total_count (cs : list Qc) : Qc :=
  match cs with
  | [] => 0
  | c :: rest => c + total_count rest
  end%Qc.

End Tracker.

(** ** What the module takes from its environment *)

(** Python values as the configuration holds them: how two of them
    compare with [!=], what [str] prints, which ones are true, and which
    ones name a path. *)
Class PyValue (value : Type) : Type := {
  py_none : value;
  py_ne : value → value → bool;
  py_str : value → string;
  py_truth : value → bool;
  py_fspath : value → option string
}.

(** The operating system's file tree, with [data] the content of a file.
    [makedirs fs p exist_ok] is [os.makedirs(p, exist_ok=exist_ok)];
    [read_file] is opening with ["rb+"] and reading all of it;
    [write_file] is opening with ["wb+"] and writing. *)
Class FileSystem (fs data : Type) : Type := {
  isdir : fs → string → bool;
  isfile : fs → string → bool;
  makedirs : fs → string → bool → result fs;
  read_file : fs → string → result data;
  write_file : fs → string → data → result fs
}.

Class FileSystemLaws (fs data : Type) `{FileSystem fs data} : Prop := {
  makedirs_isdir s p e s' : makedirs s p e = Ok s' → isdir s' p = true;
  makedirs_keeps s p e s' q :
    makedirs s p e = Ok s' → isdir s q = true → isdir s' q = true;
  write_then_read s p d s' : write_file s p d = Ok s' → read_file s' p = Ok d
}.

(** [pickle.dump] and [pickle.load] for objects of type [obj]. *)
Class Pickle (obj data : Type) : Type := {
  pickle_dumps : obj → data;
  pickle_loads : data → result obj
}.

Class PickleLaws (obj data : Type) `{Pickle obj data} : Prop := {
  loads_dumps o : pickle_loads (pickle_dumps o) = Ok o
}.

(** [os.path.join(a, b)] on a POSIX system. *)
Definition os_path_join (a b : string) : string :=
  if String.prefix "/" b then b
  else if bool_decide (a = "") || String.prefix "/" (String.rev a) then a +:+ b
  else a +:+ "/" +:+ b.

(** The argument parser of [config.py]: the default of every option and
    the option groups, each a title with the [dest] of its actions. *)
Record parser (value : Type) : Type := mk_parser {
  get_default : string → value;
  action_groups : list (string * list string)
}.
Arguments get_default {value} _ _.
Arguments action_groups {value} _.

(** ** experiment *)

Module Experiment.
Section experiment.
Context {value fs data : Type} `{PyValue value} `{FileSystem fs data}.
Variable get_parser : parser value.

(** A configuration namespace: [vars(config)] as its items. *)
Abbreviation namespace := (list (string * value)).

(** [getattr(ns, key)] *)
Definition getattr (ns : namespace) (key : string) : result value :=
  match (list_to_map ns : gmap string value) !! key with
  | Some v => Ok v
  | None => Raise AttributeError
  end.

Record experiment : Type := mk_experiment {
  config : namespace;
  experiments_prefix : string;
  logfile_name : string;
  default_config : gmap string value;
  log : option (list string)
}.

(** [sorted] on the items of a dict: the keys are distinct, so the order
    is that of the keys. *)
Fixpoint insert_sorted (item : string * value) (items : list (string * value))
    : list (string * value) :=
  match items with
  | [] => [item]
  | x :: rest =>
      if String.leb item.1 x.1 then item :: x :: rest
      else x :: insert_sorted item rest
  end.

Definition sorted (items : list (string * value)) : list (string * value) :=
  foldr insert_sorted [] items.

(** [{a.dest: self.default_config.get(a.dest, None) for a in actions}] *)
Definition group_namespace (self : experiment) (dests : list string)
    : gmap string value :=
  foldl (λ d dest, <[dest := default (py_none) (default_config self !! dest)]> d)
        ∅ dests.

(** [arg_g]: one namespace per group title, a later group of the same
    title replacing an earlier one. *)
Definition arg_groups (self : experiment) : gmap string (gmap string value) :=
  foldl (λ d group, <[group.1 := group_namespace self group.2]> d)
        ∅ (action_groups get_parser).

(** One turn of the loop that builds the identifier. *)
Definition add_key (self : experiment) (identifier : string)
    (item : string * value) : result string :=
  cur ← getattr (config self) item.1;
  if py_ne cur item.2 then
    cur' ← getattr (config self) item.1;
    Ok (identifier +:+ item.1 +:+ py_str cur')
  else Ok identifier.

(** The [experiment_dir] property. *)
Definition experiment_dir (self : experiment) : result string :=
  debug ← getattr (config self) "debug";
  if py_truth debug then Ok "./"
  else
    match arg_groups self !! "configs" with
    | None => Raise KeyError
    | Some configs =>
        identifier ← for_each (add_key self) (sorted (map_to_list configs)) "";
        Ok (os_path_join (experiments_prefix self) identifier)
    end.

(** [_makedir] *)
Definition _makedir (self : experiment) (s : fs) : result fs :=
  dir ← experiment_dir self;
  makedirs s dir false.

(** [os.makedirs(self.config.<attr>, exist_ok=True)] *)
Definition makedirs_attr (self : experiment) (attr : string) (s : fs)
    : result fs :=
  v ← getattr (config self) attr;
  match py_fspath v with
  | Some p => makedirs s p true
  | None => Raise TypeError
  end.

(** [_make_misc_dir] *)
Definition _make_misc_dir (self : experiment) (s : fs) : result fs :=
  s1 ← makedirs_attr self "prior_file" s;
  makedirs_attr self "vocab_file" s1.

(** The object [__init__] works on: [auto_init_args] stores the three
    arguments, and the first statements store the default of every
    attribute of [config] as [default_config]. *)
Definition make (config : namespace) (experiments_prefix : string)
    (logfile_name : string) : experiment :=
  let all_defaults : gmap string value :=
    foldl (λ d key, <[key := get_default get_parser key]> d) ∅ config.*1 in
  {| config := config;
     experiments_prefix := experiments_prefix;
     logfile_name := logfile_name;
     default_config := all_defaults;
     log := None |}.

(** [__init__] *)
Definition init (s : fs) (config : namespace) (experiments_prefix : string)
    (logfile_name : string) : result (fs * experiment) :=
  let self := make config experiments_prefix logfile_name in
  debug ← getattr config "debug";
  s1 ← (if negb (py_truth debug) then
          dir ← experiment_dir self;
          if isdir s dir then Raise ValueError
          else _makedir self s
        else Ok s);
  s2 ← _make_misc_dir self s1;
  Ok (s2, self).

(** [__enter__]: the logger becomes available. *)
Definition enter (self : experiment) : experiment :=
  {| config := config self;
     experiments_prefix := experiments_prefix self;
     logfile_name := logfile_name self;
     default_config := default_config self;
     log := Some (default [] (log self)) |}.

(** [self.log.info(msg)] *)
Definition log_info (self : experiment) (msg : string) : result experiment :=
  match log self with
  | Some lines =>
      Ok {| config := config self;
            experiments_prefix := experiments_prefix self;
            logfile_name := logfile_name self;
            default_config := default_config self;
            log := Some (lines ++ [msg]) |}
  | None => Raise AttributeError
  end.

End experiment.
End Experiment.

(** ** prior_buffer *)

Module PriorBuffer.

(** A two-dimensional float array, as the list of its rows. *)
Abbreviation matrix := (list (list Qc)).

(** [np.zeros((rows, dim)).astype('float32')] *)
Definition np_zeros (rows : nat) (dim : Z) : result matrix :=
  if decide (dim < 0) then Raise ValueError
  else Ok (replicate rows (replicate (Z.to_nat dim) 0%Qc)).

(** [[f(x) for x in xs]] for a fallible [f]. *)
Fixpoint list_comp {X Y : Type} (f : X → result Y) (xs : list X)
    : result (list Y) :=
  match xs with
  | [] => Ok []
  | x :: xs' => y ← f x; ys ← list_comp f xs'; Ok (y :: ys)
  end.

(** [p[:l, :]]: the first [l] rows, counted from the end when [l] is
    negative. *)
Definition rows_upto (p : matrix) (l : Z) : matrix :=
  if decide (0 ≤ l) then take (Z.to_nat l) p
  else take (Z.to_nat (Z.of_nat (length p) + l)) p.

(** How numpy holds [buffer].  Of arrays that all have one shape
    [np.asarray] makes a single three-dimensional array of floats; of
    arrays of unequal length it makes a one-dimensional array of
    objects, each a two-dimensional array (so the numpy releases of the
    time of this code; those from 1.24 on refuse such a list).  The
    slots are the list of
    two-dimensional arrays in both cases; what differs is what an
    assignment to a slot does. *)
Inductive layout : Type := Dense | Ragged.

#[global] Instance layout_eq_dec : EqDecision layout.
Proof. solve_decision. Defined.

(** The layout of [np.asarray(arrays)] for two-dimensional arrays of one
    width. *)
Definition np_asarray_layout (arrays : list matrix) : layout :=
  match arrays with
  | [] => Dense
  | a :: rest =>
      if bool_decide (Forall (λ b, length b = length a) rest) then Dense
      else Ragged
  end.

(** numpy's broadcasting along one axis: a list of the size asked for
    is taken as it is, a list of one element is repeated, and any other
    is refused. *)
Definition broadcast_to {X : Type} (n : nat) (xs : list X) : result (list X) :=
  if decide (length xs = n) then Ok xs
  else match xs with
       | [x] => Ok (replicate n x)
       | _ => Raise ValueError
       end.

(** [target[...] = value] on two-dimensional float arrays: [value] is
    broadcast to the shape of [target] and copied into it. *)
Definition np_copy_into (target value : matrix) : result matrix :=
  rows ← broadcast_to (length target) value;
  list_comp (λ tr, broadcast_to (length tr.1) tr.2) (zip target rows).

(** [buffer[new_i] = value], where [slot] is what [buffer[new_i]] holds:
    a dense array copies [value] into the slot, an array of objects
    holds [value] itself from then on. *)
Definition assign_slot (kind : layout) (slot value : matrix) : result matrix :=
  match kind with
  | Dense => np_copy_into slot value
  | Ragged => Ok value
  end.

Record prior_buffer : Type := mk_prior_buffer {
  dim : Z;
  freq : Z;
  path : option string;
  buffer_layout : layout;
  buffer : list matrix;
  count : list Z
}.

(** [__len__] *)
Definition len (self : prior_buffer) : Z := Z.of_nat (length (buffer self)).

(** The body of the loop of [update_buffer] for one triple [(p, i, l)]. *)
Definition update_slot (self : prior_buffer) (pil : matrix * Z * Z)
    : result prior_buffer :=
  let '(p, i, l) := pil in
  new_i ← py_mod i (len self);
  c ← py_index (count self) new_i;
  r ← py_mod c (freq self);
  buffer' ← (if decide (r = 0) then
               slot ← py_index (buffer self) new_i;
               _ ← py_assert (bool_decide (Z.of_nat (length slot) = l));
               slot' ← assign_slot (buffer_layout self) slot (rows_upto p l);
               Ok (<[Z.to_nat new_i := slot']> (buffer self))
             else Ok (buffer self));
  Ok {| dim := dim self;
        freq := freq self;
        path := path self;
        buffer_layout := buffer_layout self;
        buffer := buffer';
        count := <[Z.to_nat new_i := c + 1]> (count self) |}.

(** [zip(post, ixs, seq_len)] *)
Definition triples (ixs : list Z) (post : list matrix) (seq_len : list Z)
    : list (matrix * Z * Z) :=
  zip (zip post ixs) seq_len.

(** [update_buffer(ixs, post, seq_len)] *)
Definition update_buffer (self : prior_buffer) (ixs : list Z)
    (post : list matrix) (seq_len : list Z) : result prior_buffer :=
  for_each update_slot (triples ixs post seq_len) self.

(** The value [__init__] gives [self.path]:
    [os.path.join(init_path, name + "_" + str(dim))], or [None]. *)
Definition derived_path (name : string) (dim : Z) (init_path : option string)
    : option string :=
  match init_path with
  | Some ip => Some (os_path_join ip (name +:+ "_" +:+ pretty dim))
  | None => None
  end.

Section storage.
Context {value fs data : Type} `{FileSystem fs data}
        `{Pickle (layout * list matrix) data}.

(** The part of the world a buffer acts on: the file tree and the
    experiment object that [self.expe] refers to. *)
Record world : Type := mk_world {
  w_fs : fs;
  w_expe : @Experiment.experiment value
}.

(** [open(self.path, mode)] needs a path. *)
Definition the_path (self : prior_buffer) : result string :=
  match path self with
  | Some p => Ok p
  | None => Raise TypeError
  end.

(** [save] *)
Definition save (self : prior_buffer) (w : world) : result world :=
  p ← the_path self;
  s ← write_file (w_fs w) p (pickle_dumps (buffer_layout self, buffer self));
  e ← Experiment.log_info (w_expe w) ("prior saved to: " +:+ p);
  Ok {| w_fs := s; w_expe := e |}.

(** [load], which returns the stored array: its layout and its slots. *)
Definition load (self : prior_buffer) (w : world)
    : result (world * (layout * list matrix)) :=
  p ← the_path self;
  d ← read_file (w_fs w) p;
  priors ← pickle_loads d;
  e ← Experiment.log_info (w_expe w) ("prior loaded from: " +:+ p);
  Ok ({| w_fs := w_fs w; w_expe := e |}, priors).

(** [self.path is None or not os.path.isfile(self.path)] *)
Definition path_missing (w : world) (path : option string) : bool :=
  match path with
  | None => true
  | Some p => negb (isfile (w_fs w) p)
  end.

(** [self.path is not None and os.path.isfile(self.path)] *)
Definition path_present (w : world) (path : option string) : bool :=
  match path with
  | None => false
  | Some p => isfile (w_fs w) p
  end.

(** [__init__]; [inputs] are the training sequences, of which only the
    lengths are used. *)
Definition init (w : world) (inputs : list (list Z)) (dim freq : Z)
    (name : string) (init_path : option string)
    : result (world * prior_buffer) :=
  let path := derived_path name dim init_path in
  let self := {| dim := dim; freq := freq; path := path;
                 buffer_layout := Dense; buffer := []; count := [] |} in
  '(w', stored) ←
    (if path_missing w path then
       zeros ← list_comp (λ r, np_zeros (length r) dim) inputs;
       Ok (w, (np_asarray_layout zeros, zeros))
     else if path_present w path then load self w
     else Raise ValueError);
  Ok (w', {| dim := dim; freq := freq; path := path;
             buffer_layout := stored.1; buffer := stored.2;
             count := replicate (length inputs) 0 |}).

End storage.
End PriorBuffer.

(** ** Arrays of predictions, labels and masks

    An array is the list of its entries in row-major order (the sums
    below do not depend on the shape).  An elementwise operation on
    arrays of different sizes raises; broadcasting is not represented. *)

Abbreviation array := (list Z).

(** An elementwise binary operation. *)
Definition elementwise {X Y C : Type} (f : X → Y → C) (xs : list X)
    (ys : list Y) : result (list C) :=
  if decide (length xs = length ys) then Ok (zip_with f xs ys)
  else Raise ValueError.

(** [a == b] *)
Definition np_eq (a b : array) : result (list bool) :=
  elementwise (λ x y, bool_decide (x = y)) a b.

(** [bools * mask] *)
Definition np_mul_bool (bs : list bool) (mask : array) : result array :=
  elementwise (λ (b : bool) m, (if b then 1 else 0) * m) bs mask.

(** [a.sum()] *)
Definition np_sum (a : array) : Z := foldl Z.add 0 a.

(** [a[mask != 0]] *)
Definition np_select (a mask : array) : result array :=
  sel ← elementwise (λ x m, (x, bool_decide (m ≠ 0))) a mask;
  Ok (filter (λ xm, xm.2 = true) sel).*1.

(** [right / instances if instances else 0.0] *)
Definition accuracy (right instances : Z) : Qc :=
  if bool_decide (instances ≠ 0) then (Qc_of_Z right / Qc_of_Z instances)%Qc
  else 0%Qc.

(** ** accuracy_reporter *)

Module AccuracyReporter.

Record accuracy_reporter : Type := mk_accuracy_reporter {
  right_count : Z;
  instance_count : Z;
  pred : option array;
  label : option array
}.

(** [__init__] *)
Definition init : accuracy_reporter :=
  {| right_count := 0; instance_count := 0; pred := None; label := None |}.

(** [update(pred, label, mask)] *)
Definition update (self : accuracy_reporter) (pred label mask : array)
    : result accuracy_reporter :=
  same ← np_eq pred label;
  hits ← np_mul_bool same mask;
  Ok {| right_count := right_count self + np_sum hits;
        instance_count := instance_count self + np_sum mask;
        pred := Some pred;
        label := Some label |}.

(** [report()]: the dict and the accuracy. *)
Definition report (self : accuracy_reporter) : gmap string Qc * Qc :=
  let acc := accuracy (right_count self) (instance_count self) in
  ({[ "acc" := acc; "f1" := 0%Qc; "prec" := 0%Qc; "rec" := 0%Qc ]}, acc).

(** A sequence of [update] calls, each given as [(pred, label, mask)]. *)
Definition updates (self : accuracy_reporter)
    (calls : list (array * array * array)) : result accuracy_reporter :=
  for_each (λ s c, update s c.1.1 c.1.2 c.2) calls self.

End AccuracyReporter.

(** ** f1_reporter *)

Module F1Reporter.

Record f1_reporter : Type := mk_f1_reporter {
  inv_tag_vocab : gmap Z string;
  instance_count : Z;
  right_count : Z;
  f1 : list Qc;
  prec : list Qc;
  rec : list Qc;
  pred : option array;
  label : option array
}.

(** [__init__] *)
Definition init (inv_tag_vocab : gmap Z string) : f1_reporter :=
  {| inv_tag_vocab := inv_tag_vocab;
     instance_count := 0; right_count := 0;
     f1 := []; prec := []; rec := [];
     pred := None; label := None |}.

(** [update(pred, label, mask)], on arrays already flat. *)
Definition update (self : f1_reporter) (pred label mask : array)
    : result f1_reporter :=
  same ← np_eq label pred;
  hits ← np_mul_bool same mask;
  pred' ← np_select pred mask;
  label' ← np_select label mask;
  Ok {| inv_tag_vocab := inv_tag_vocab self;
        instance_count := instance_count self + np_sum mask;
        right_count := right_count self + np_sum hits;
        f1 := f1 self; prec := prec self; rec := rec self;
        pred := Some pred';
        label := Some label' |}.

(** [report()].  Line 275 of the source, [self.prec.append(prec))],
    closes a parenthesis that was never opened: Python refuses the text
    of the function with [SyntaxError], so no call of [report] computes
    anything, whatever the reporter holds. *)
Definition report (self : f1_reporter)
    : result (f1_reporter * gmap string Qc * list Qc) :=
  Raise SyntaxError.

(** A sequence of [update] calls, each given as [(pred, label, mask)]. *)
Definition updates (self : f1_reporter)
    (calls : list (array * array * array)) : result f1_reporter :=
  for_each (λ s c, update s c.1.1 c.1.2 c.2) calls self.

End F1Reporter.

(** ** Instances on which the statements below are exercised *)

(** Configuration values of four kinds. *)
Inductive pyval : Type :=
  | PNone
  | PBool (b : bool)
  | PInt (n : Z)
  | PStr (s : string).

#[global] Instance pyval_eq_dec : EqDecision pyval.
Proof. solve_decision. Defined.

(** The integer a value compares as, [True] being [1]. *)
Definition pyval_num (v : pyval) : option Z :=
  match v with
  | PBool b => Some (if b then 1 else 0)
  | PInt n => Some n
  | _ => None
  end.

#[global] Instance pyval_value : PyValue pyval := {|
  py_none := PNone;
  py_ne a b :=
    match pyval_num a, pyval_num b with
    | Some x, Some y => bool_decide (x ≠ y)
    | _, _ => bool_decide (a ≠ b)
    end;
  py_str v :=
    match v with
    | PNone => "None"
    | PBool true => "True"
    | PBool false => "False"
    | PInt n => pretty n
    | PStr s => s
    end;
  py_truth v :=
    match v with
    | PNone => false
    | PBool b => b
    | PInt n => bool_decide (n ≠ 0)
    | PStr s => bool_decide (s ≠ "")
    end;
  py_fspath v := match v with PStr s => Some s | _ => None end
|}.

(** A file tree in memory: the directories and the files by path. *)
Record memfs (data : Type) : Type := mk_memfs {
  mem_dirs : gset string;
  mem_files : gmap string data
}.
Arguments mk_memfs {data} _ _.
Arguments mem_dirs {data} _.
Arguments mem_files {data} _.

#[global] Instance memfs_fs (data : Type) : FileSystem (memfs data) data := {|
  isdir s p := bool_decide (p ∈ mem_dirs s);
  isfile s p := bool_decide (is_Some (mem_files s !! p));
  makedirs s p exist_ok :=
    if bool_decide (p ∈ mem_dirs s) then
      if exist_ok then Ok s else Raise FileExistsError
    else if bool_decide (is_Some (mem_files s !! p)) then Raise FileExistsError
    else Ok (mk_memfs ({[p]} ∪ mem_dirs s) (mem_files s));
  read_file s p :=
    match mem_files s !! p with
    | Some d => Ok d
    | None => Raise FileNotFoundError
    end;
  write_file s p d :=
    if bool_decide (p ∈ mem_dirs s) then Raise OSError
    else Ok (mk_memfs (mem_dirs s) (<[p := d]> (mem_files s)))
|}.

(** Serialisation that stores the object itself. *)
#[global] Instance pickle_id (obj : Type) : Pickle obj obj := {|
  pickle_dumps o := o;
  pickle_loads d := Ok d
|}.


(** ** Data for the worked cases *)

Definition update_calls (self : PriorBuffer.prior_buffer)
    (calls : list (list Z * list PriorBuffer.matrix * list Z))
    : result PriorBuffer.prior_buffer :=
  for_each (λ s c, PriorBuffer.update_buffer s c.1.1 c.1.2 c.2) calls self.

Module Cases.
Import PriorBuffer.

Definition q (n : Z) : Qc := Qc_of_Z n.

(** An experiment that has been entered, over no configuration. *)
Definition entered : @Experiment.experiment pyval :=
  {| Experiment.config := [];
     Experiment.experiments_prefix := "runs";
     Experiment.logfile_name := "log";
     Experiment.default_config := ∅;
     Experiment.log := Some [] |}.

(** An empty file tree whose files hold pickled buffers. *)
Definition empty_world : @world pyval (memfs (layout * list matrix)) :=
  {| w_fs := mk_memfs ∅ ∅; w_expe := entered |}.

(** Two training sequences, of lengths 2 and 1. *)
Definition two_inputs : list (list Z) := [[11; 12]; [13]].

(** The buffer built for them with [dim = 1] and [freq = 3]. *)
Definition fresh_buffer : prior_buffer :=
  {| dim := 1; freq := 3; path := None; buffer_layout := Ragged;
     buffer := [[[0%Qc]; [0%Qc]]; [[0%Qc]]];
     count := [0; 0] |}.

(** Model output for one sequence: three rows of width 1. *)
Definition post3 : matrix := [[q 5]; [q 6]; [q 7]].

(** Model output with a single row. *)
Definition post1 : matrix := [[q 5]].

(** [fresh_buffer] after [update_buffer([0], [post3], [2])]. *)
Definition after_first : prior_buffer :=
  {| dim := 1; freq := 3; path := None; buffer_layout := Ragged;
     buffer := [[[q 5]; [q 6]]; [[0%Qc]]];
     count := [1; 0] |}.

(** [after_first] after [update_buffer([0], [post1], [1])]. *)
Definition after_second : prior_buffer :=
  {| dim := 1; freq := 3; path := None; buffer_layout := Ragged;
     buffer := [[[q 5]; [q 6]]; [[0%Qc]]];
     count := [2; 0] |}.

(** A tree that holds a persisted buffer of one slot. *)
Definition stored_world : @world pyval (memfs (layout * list matrix)) :=
  {| w_fs := mk_memfs ∅ {[ "priors/prior_1" := (Dense, [[[q 1]; [q 2]]]) ]};
     w_expe := entered |}.

(** A buffer of one slot, to be kept at [priors/prior_1]. *)
Definition saved_buffer : prior_buffer :=
  {| dim := 1; freq := 3; path := Some "priors/prior_1";
     buffer_layout := Dense; buffer := [[[q 1]; [q 2]]]; count := [0] |}.

(** The world [saved_buffer.save()] leaves when run in [empty_world]. *)
Definition saved_world : @world pyval (memfs (layout * list matrix)) :=
  {| w_fs := mk_memfs ∅ {[ "priors/prior_1" := (Dense, [[[q 1]; [q 2]]]) ]};
     w_expe :=
       {| Experiment.config := [];
          Experiment.experiments_prefix := "runs";
          Experiment.logfile_name := "log";
          Experiment.default_config := ∅;
          Experiment.log := Some ["prior saved to: priors/prior_1"] |} |}.

(** A buffer of one slot, to be kept in the file [prior_1] of the
    working directory. *)
Definition kept_buffer : prior_buffer :=
  {| dim := 1; freq := 3; path := Some "prior_1";
     buffer_layout := Dense; buffer := [[[q 1]; [q 2]]]; count := [4] |}.

(** The world [kept_buffer.save()] leaves when run in [empty_world]. *)
Definition kept_world : @world pyval (memfs (layout * list matrix)) :=
  {| w_fs := mk_memfs ∅ {[ "prior_1" := (Dense, [[[q 1]; [q 2]]]) ]};
     w_expe :=
       {| Experiment.config := [];
          Experiment.experiments_prefix := "runs";
          Experiment.logfile_name := "log";
          Experiment.default_config := ∅;
          Experiment.log := Some ["prior saved to: prior_1"] |} |}.

(** Another buffer object with the path of [kept_buffer], holding
    zeros. *)
Definition reader : prior_buffer :=
  {| dim := 1; freq := 3; path := Some "prior_1";
     buffer_layout := Dense; buffer := [[[0%Qc]; [0%Qc]]]; count := [0] |}.

(** A parser with one group of options, [configs]. *)
Definition small_parser : parser pyval :=
  {| get_default key :=
       if bool_decide (key = "debug") then PBool false
       else if bool_decide (key = "seed") then PInt 0
       else if bool_decide (key = "prior_file") then PStr "prior"
       else if bool_decide (key = "vocab_file") then PStr "vocab"
       else PNone;
     action_groups :=
       [("optional arguments", ["help"]);
        ("configs", ["debug"; "seed"; "prior_file"; "vocab_file"])] |}.

(** A run of that parser with [seed] set to 7. *)
Definition small_config : list (string * pyval) :=
  [("debug", PBool false); ("seed", PInt 7);
   ("prior_file", PStr "prior"); ("vocab_file", PStr "vocab")].

(** A file tree with nothing in it. *)
Definition empty_tree : memfs unit := mk_memfs ∅ ∅.

End Cases.

(** ** Predicates used in the statements *)

(** The tracker knows every name it was built with, and no other. *)
Definition tracks (t : Tracker.tracker) : Prop :=
  ∀ k, is_Some (Tracker.values t !! k) ↔ k ∈ Tracker.names t.

(** A call of [tracker.update] whose dict has distinct keys, all of them
    among [names]. *)
Definition known_call (names : list string) (call : list (string * Qc) * Qc)
    : Prop :=
  NoDup call.1.*1 ∧ call.1.*1 ⊆ names.

(** A triple of [update_buffer] whose array has at least as many rows
    as its length says. *)
Definition enough_rows (pil : PriorBuffer.matrix * Z * Z) : Prop :=
  pil.2 ≤ Z.of_nat (length pil.1.1).

(** The array [value] has the shape of [slot]: as many rows, each as
    long as the row it would take the place of. *)
Definition fits (slot value : PriorBuffer.matrix) : Prop :=
  Forall2 (λ t v, length v = length t) slot value.

(** The object [self] with another content and other counters. *)
Definition with_content (self : PriorBuffer.prior_buffer)
    (buffer : list PriorBuffer.matrix) (count : list Z)
    : PriorBuffer.prior_buffer :=
  {| PriorBuffer.dim := PriorBuffer.dim self;
     PriorBuffer.freq := PriorBuffer.freq self;
     PriorBuffer.path := PriorBuffer.path self;
     PriorBuffer.buffer_layout := PriorBuffer.buffer_layout self;
     PriorBuffer.buffer := buffer;
     PriorBuffer.count := count |}.

(** The sum of a list of integers. *)
Definition Zsum (l : list Z) : Z := foldr Z.add 0 l.

(** The positions of one [update(pred, label, mask)] call, each with its
    prediction, label and mask entry. *)
Definition positions (c : array * array * array) : list (Z * Z * Z) :=
  zip (zip c.1.1 c.1.2) c.2.

(** The three arrays of a call have the same size. *)
Definition same_shape (c : array * array * array) : Prop :=
  length c.1.1 = length c.1.2 ∧ length c.1.2 = length c.2.

(** The mask of a call holds zeros and ones only. *)
Definition binary_mask (c : array * array * array) : Prop :=
  Forall (λ m, m = 0 ∨ m = 1) c.2.

(** The mask entries of the positions where prediction and label agree,
    summed. *)
Definition weighted_matches (c : array * array * array) : Z :=
  Zsum ((λ plm : Z * Z * Z, if decide (plm.1.1 = plm.1.2) then plm.2 else 0)
        <$> positions c).

(** The number of positions where prediction and label agree and the
    mask is not zero. *)
Definition matched_count (c : array * array * array) : Z :=
  Z.of_nat (length (filter (λ plm : Z * Z * Z, plm.1.1 = plm.1.2 ∧ plm.2 ≠ 0)
                           (positions c))).

(** The sum of the mask of a call. *)
Definition mask_sum (c : array * array * array) : Z := Zsum c.2.

(** Prediction and label agree wherever the mask is not zero. *)
Definition all_matched (c : array * array * array) : Prop :=
  Forall (λ plm : Z * Z * Z, plm.2 ≠ 0 → plm.1.1 = plm.1.2) (positions c).

(** The entries of [a] at the positions where [mask] is not zero. *)
Definition masked_in (a mask : array) : array :=
  (filter (λ am : Z * Z, am.2 ≠ 0) (zip a mask)).*1.

(** * The rest of the module *)

(** ** Further parts of the environment *)

(** ["{:.nf}".format(x)]: a float printed with [n] decimals. *)
Class FloatFormat : Type := {
  format_float : nat → Qc → string
}.

(** [np.exp], by what is used of it: it is [1] at [0] and does not
    decrease. *)
Class Exp : Type := {
  np_exp : Qc → Qc
}.

Class ExpLaws `{Exp} : Prop := {
  np_exp_0 : np_exp 0%Qc = 1%Qc;
  np_exp_mono x y : (x ≤ y)%Qc → (np_exp x ≤ np_exp y)%Qc
}.

(** More of what the file tree does: creating, with [exist_ok], a
    directory that exists changes nothing, and a file that was written
    exists. *)
Class FileSystemLawsMore (fs data : Type) `{FileSystem fs data} : Prop := {
  makedirs_exist_ok s p : isdir s p = true → makedirs s p true = Ok s;
  write_then_isfile s p d s' : write_file s p d = Ok s' → isfile s' p = true
}.

(** ** get_kl_temp *)

(** [np.minimum(a, b)] *)
Definition np_minimum (a b : Qc) : Qc :=
  if decide (a ≤ b)%Qc then a else b.

(** [get_kl_temp(kl_anneal_rate, curr_iteration, max_temp)] *)
Definition get_kl_temp `{Exp} (kl_anneal_rate : Qc) (curr_iteration : Z)
    (max_temp : Qc) : Qc :=
  let temp := (np_exp (kl_anneal_rate * Qc_of_Z curr_iteration) - 1)%Qc in
  np_minimum temp max_temp.

(** ** tracker: the summary line *)

Module TrackerText.
Import Tracker.
Section summarize.
Context `{FloatFormat}.

(** [self.values[name] / self.counter if self.counter else 0]: the
    dict is read only when the counter is not zero. *)
Definition mean_of (self : tracker) (name : string) : result Qc :=
  if bool_decide (counter self ≠ 0%Qc) then
    match values self !! name with
    | Some v => Ok (v / counter self)%Qc
    | None => Raise KeyError
    end
  else Ok 0%Qc.

(** One turn of the loop of [summarize]. *)
Definition add_name (self : tracker) (output : string) (name : string)
    : result string :=
  m ← mean_of self name;
  Ok (output +:+ name +:+ ": " +:+ format_float 3 m +:+ ", ").

(** [summarize(output)]; [now] is the reading of [time.time()]. *)
Definition summarize (self : tracker) (output : string) (now : Qc)
    : result string :=
  let output1 := if bool_decide (output ≠ "") then output +:+ ", "
                 else output in
  output2 ← for_each (add_name self) (names self) output1;
  Ok (output2 +:+ "elapsed time: "
      +:+ format_float 1 (now - create_time self)%Qc +:+ "(s)").

End summarize.
End TrackerText.

(** ** prior_buffer: the padded read *)

Module PriorBufferRead.
Import PriorBuffer.

(** [a[i]] on a numpy array, for one index of an index list: an index
    from [-len(a)] on counts from the end. *)
Definition np_take {A} (a : list A) (i : Z) : result A :=
  let n := Z.of_nat (length a) in
  if decide (- n ≤ i < n) then py_index a (i `mod` n)
  else Raise IndexError.

(** [np.max(xs)] *)
Definition np_max (xs : list nat) : result nat :=
  match xs with
  | [] => Raise ValueError
  | x :: rest => Ok (foldl Nat.max x rest)
  end.

(** One row of [b] as it lands in a row of width [dim]: as it is when
    it has that width, repeated when it has a single entry. *)
Definition fit_row (dim : Z) (row : list Qc) : result (list Qc) :=
  if decide (Z.of_nat (length row) = dim) then Ok row
  else match row with
       | [x] => Ok (replicate (Z.to_nat dim) x)
       | _ => Raise ValueError
       end.

(** [pad_buffer[i, :len(b), :] = b], giving row [i] of the result;
    [zeros] is that row before the assignment.  (The width of an array
    without rows is not represented, so such a [b] always fits.) *)
Definition assign_rows (dim : Z) (zeros b : matrix) : result matrix :=
  rows ← list_comp (fit_row dim) b;
  Ok (rows ++ drop (length b) zeros).

(** [__getitem__(ixs)] *)
Definition getitem (self : prior_buffer) (ixs : list Z)
    : result (list matrix) :=
  get_buffer ← list_comp (np_take (buffer self)) ixs;
  max_len ← np_max (length <$> get_buffer);
  zeros ← np_zeros max_len (dim self);
  list_comp (assign_rows (dim self) zeros) get_buffer.

End PriorBufferRead.

(** ** evaluator *)

Module Evaluator.
Section evaluator.
Context {value : Type} `{PyValue value} `{FloatFormat}.

(** One minibatch as [evaluate] has it: the mask and the labels that
    [minibatcher] yields, and the predictions ([outputs[-1]]) and the
    loss ([outputs[1]]) that the model returns for them. *)
Record batch : Type := mk_batch {
  mask : array;
  label : array;
  pred : array;
  log_loss : Qc
}.

Record evaluator : Type := mk_evaluator {
  inv_tag_vocab : gmap Z string;
  expe : @Experiment.experiment value
}.

(** The reporter [evaluate] works with, of one class or the other. *)
Inductive reporter : Type :=
  | OfAccuracy (r : AccuracyReporter.accuracy_reporter)
  | OfF1 (r : F1Reporter.f1_reporter).

(** The second component of what [report] returns: the accuracy, or
    the F1 history. *)
Inductive res : Type :=
  | Accuracy (acc : Qc)
  | F1History (f1 : list Qc).

(** [reporter.update(pred, label, mask)] *)
Definition reporter_update (r : reporter) (pred label mask : array)
    : result reporter :=
  match r with
  | OfAccuracy r => r' ← AccuracyReporter.update r pred label mask;
                    Ok (OfAccuracy r')
  | OfF1 r => r' ← F1Reporter.update r pred label mask; Ok (OfF1 r')
  end.

(** [reporter.report()] *)
Definition reporter_report (r : reporter) : result (gmap string Qc * res) :=
  match r with
  | OfAccuracy r =>
      let out := AccuracyReporter.report r in Ok (out.1, Accuracy out.2)
  | OfF1 r => out ← F1Reporter.report r; Ok (out.1.2, F1History out.2)
  end.

(** [sep.join(parts)] *)
Fixpoint join (sep : string) (parts : list string) : string :=
  match parts with
  | [] => ""
  | [part] => part
  | part :: rest => part +:+ sep +:+ join sep rest
  end.

(** [sorted(perf.items())] *)
Definition sorted_items (perf : gmap string Qc) : list (string * Qc) :=
  foldr Experiment.insert_sorted [] (map_to_list perf).

(** [", ".join([x[0] + ": {:.5f}".format(x[1])
               for x in sorted(perf.items())])] *)
Definition perf_text (perf : gmap string Qc) : string :=
  join ", " ((λ x, x.1 +:+ ": " +:+ format_float 5 x.2) <$> sorted_items perf).

(** The body of the loop of [evaluate] for one minibatch; the model is
    called with [self.expe.config.vb_temp] among its arguments. *)
Definition evaluate_batch (self : evaluator)
    (state : reporter * Tracker.tracker) (b : batch)
    : result (reporter * Tracker.tracker) :=
  _ ← Experiment.getattr (Experiment.config (expe self)) "vb_temp";
  rep ← reporter_update state.1 (pred b) (label b) (mask b);
  stats ← Tracker.update state.2 [("log_loss", log_loss b)]
             (Qc_of_Z (np_sum (mask b)));
  Ok (rep, stats).

(** [evaluate(data)]: [batches] is what the minibatches of [data] and
    the model give, [now0] and [now1] the readings of the clock when
    the tracker is created and when it is summarised.  Returns the
    experiment object after logging, [perf] and [res]. *)
Definition evaluate (self : evaluator) (batches : list batch) (now0 now1 : Qc)
    : result (@Experiment.experiment value * gmap string Qc * res) :=
  eval_stats ← Tracker.init ["log_loss"] now0;
  f1_score ← Experiment.getattr (Experiment.config (expe self)) "f1_score";
  let reporter := if py_truth f1_score
                  then OfF1 (F1Reporter.init (inv_tag_vocab self))
                  else OfAccuracy AccuracyReporter.init in
  state ← for_each (evaluate_batch self) batches (reporter, eval_stats);
  out ← reporter_report state.1;
  summary ← TrackerText.summarize state.2 (perf_text out.1) now1;
  expe' ← Experiment.log_info (expe self) summary;
  Ok (expe', out.1, out.2).

End evaluator.
End Evaluator.

(** ** Predicates used in the further statements *)

(** The part of the summary line that lists the names: each name with
    its running mean, printed with three decimals. *)
Definition summary_body `{FloatFormat} (t : Tracker.tracker)
    (names : list string) : string :=
  foldr (λ name rest,
           name +:+ ": " +:+ format_float 3 (Tracker.getitem t name)
           +:+ ", " +:+ rest) "" names.

(** Every row of the array has [dim] entries. *)
Definition has_width (dim : Z) (m : PriorBuffer.matrix) : Prop :=
  Forall (λ row, Z.of_nat (length row) = dim) m.

(** Every slot of the buffer has rows of [dim] entries. *)
Definition well_shaped (self : PriorBuffer.prior_buffer) : Prop :=
  Forall (has_width (PriorBuffer.dim self)) (PriorBuffer.buffer self).

(** Every array handed over in a sequence of [update_buffer] calls has
    rows of [dim] entries. *)
Definition posts_have_width (dim : Z)
    (calls : list (list Z * list PriorBuffer.matrix * list Z)) : Prop :=
  Forall (λ c, Forall (has_width dim) c.1.2) calls.

(** The slot that index [i] addresses in a buffer of [n] slots. *)
Definition slot_of (n : nat) (i : Z) : nat := Z.to_nat (i `mod` Z.of_nat n).

(** A row of [dim] zeros. *)
Definition zero_row (dim : Z) : list Qc := replicate (Z.to_nat dim) 0%Qc.

(** The order in which [sorted] puts the items of a dict: by key. *)
Definition by_key {V} (a b : string * V) : Prop :=
  String.leb a.1 b.1 = true.

(** What an option of the [configs] group adds to the identifier of the
    experiment directory: its name and value when the value differs
    from [default], nothing otherwise. *)
Definition identifier_piece {value : Type} `{PyValue value}
    (config : list (string * value)) (item : string * value) : string :=
  match (list_to_map config : gmap string value) !! item.1 with
  | Some cur => if py_ne cur item.2 then item.1 +:+ py_str cur else ""
  | None => ""
  end.

(** The pieces of a list of options, one after the other. *)
Definition identifier_of {value : Type} `{PyValue value}
    (config items : list (string * value)) : string :=
  foldr (λ item rest, identifier_piece config item +:+ rest) "" items.

(** The arguments of [reporter.update] for a minibatch. *)
Definition batch_arrays (b : Evaluator.batch) : array * array * array :=
  (Evaluator.pred b, Evaluator.label b, Evaluator.mask b).

(** The arguments of [eval_stats.update] for a minibatch. *)
Definition batch_update (b : Evaluator.batch) : list (string * Qc) * Qc :=
  ([("log_loss", Evaluator.log_loss b)],
   Qc_of_Z (np_sum (Evaluator.mask b))).

(** The text [evaluate] makes of the four scores of [perf], in the
    order of their names. *)
Definition scores_text `{FloatFormat} (acc f1 prec rec : Qc) : string :=
  "acc: " +:+ format_float 5 acc
  +:+ ", f1: " +:+ format_float 5 f1
  +:+ ", prec: " +:+ format_float 5 prec
  +:+ ", rec: " +:+ format_float 5 rec.

(** The number of masked-in positions of each minibatch. *)
Definition batch_counts (batches : list Evaluator.batch) : list Qc :=
  (λ b, Qc_of_Z (np_sum (Evaluator.mask b))) <$> batches.

(** The mean of the losses of the minibatches, each weighted with its
    number of masked-in positions; [0] when there is no such position. *)
Definition mean_loss (batches : list Evaluator.batch) : Qc :=
  if bool_decide (Tracker.total_count (batch_counts batches) ≠ 0%Qc)
  then (Tracker.weighted_sum
          (zip (Evaluator.log_loss <$> batches) (batch_counts batches))
        / Tracker.total_count (batch_counts batches))%Qc
  else 0%Qc.

(** The accuracy over all minibatches: the mask entries at agreeing
    positions, summed, over the sum of the masks. *)
Definition data_accuracy (batches : list Evaluator.batch) : Qc :=
  accuracy (Zsum (weighted_matches <$> (batch_arrays <$> batches)))
           (Zsum (mask_sum <$> (batch_arrays <$> batches))).

(** The line [evaluate] logs for a text of the scores, a mean loss and
    an elapsed time. *)
Definition evaluation_line `{FloatFormat} (scores : string)
    (loss elapsed : Qc) : string :=
  scores +:+ ", log_loss: " +:+ format_float 3 loss
  +:+ ", elapsed time: " +:+ format_float 1 elapsed +:+ "(s)".

(** ** Further instances for the worked cases *)

(** Floats printed as the quotient of two integers. *)
#[global] Instance format_fraction : FloatFormat := {|
  format_float _ x :=
    pretty (Qnum (this x)) +:+ "/" +:+ pretty (Zpos (Qden (this x)))
|}.

(** A function with the two properties of [Exp]: [x ↦ 1 + x]. *)
Definition affine_exp : Exp := {| np_exp x := (1 + x)%Qc |}.


(** ** Data for the further worked cases *)

Module EvalCases.

(** An entered experiment whose configuration asks for accuracy. *)
Definition plain_expe : @Experiment.experiment pyval :=
  {| Experiment.config := [("f1_score", PBool false); ("vb_temp", PInt 1)];
     Experiment.experiments_prefix := "runs";
     Experiment.logfile_name := "log";
     Experiment.default_config := ∅;
     Experiment.log := Some [] |}.

(** The same configuration on an experiment that was not entered. *)
Definition closed_expe : @Experiment.experiment pyval :=
  {| Experiment.config := [("f1_score", PBool false); ("vb_temp", PInt 1)];
     Experiment.experiments_prefix := "runs";
     Experiment.logfile_name := "log";
     Experiment.default_config := ∅;
     Experiment.log := None |}.

(** Two minibatches: two positions with one agreement, then three
    positions, one masked out, with one agreement among the others. *)
Definition two_batches : list Evaluator.batch :=
  [ {| Evaluator.mask := [1; 1]; Evaluator.label := [1; 3];
       Evaluator.pred := [1; 2]; Evaluator.log_loss := Qc_of_Z 2 |};
    {| Evaluator.mask := [1; 0; 1]; Evaluator.label := [4; 5; 7];
       Evaluator.pred := [4; 5; 6]; Evaluator.log_loss := Qc_of_Z 4 |} ].

End EvalCases.
(** * Properties *)

(** ** Fallible calls *)

Lemma bind_Ok {A B} (m : result A) (f : A → result B) b :
  (m ≫= f) = Ok b ↔ ∃ a, m = Ok a ∧ f a = Ok b.
Proof.
  destruct m as [a|e]; simpl; split.
  - intros Hf. by exists a.
  - by intros (a' & [= ->] & Hf).
  - done.
  - by intros (a' & [=] & _).
Qed.

Lemma for_each_app {S X} (body : S → X → result S) xs ys s :
  for_each body (xs ++ ys) s = (for_each body xs s ≫= for_each body ys).
Proof.
  revert s. induction xs as [|x xs IH]; intros s; simpl; [done|].
  destruct (body s x) as [s'|e]; simpl; [apply IH|done].
Qed.

Lemma for_each_take_Ok {S X} (body : S → X → result S) xs s s' k :
  for_each body xs s = Ok s' → succeeds (for_each body (take k xs) s).
Proof.
  rewrite <-(take_drop k xs) at 1. rewrite for_each_app.
  intros (a & Ha & _)%bind_Ok. by exists a.
Qed.

Lemma bind_ret_l {A B} (a : A) (f : A → result B) : (Ok a ≫= f) = f a.
Proof. reflexivity. Qed.

Lemma for_each_invariant {S X} (P : S → Prop) (body : S → X → result S) xs :
  (∀ s x s', P s → body s x = Ok s' → P s') →
  ∀ s s', P s → for_each body xs s = Ok s' → P s'.
Proof.
  intros Hbody. induction xs as [|x xs IH]; intros s s' Hs; cbn [for_each].
  - by intros [= <-].
  - intros (s1 & H1 & Hrest)%bind_Ok. eauto.
Qed.
Lemma for_each_invariant_in {S X} (P : S → Prop) (Q : X → Prop)
    (body : S → X → result S) xs :
  (∀ s x s', Q x → P s → body s x = Ok s' → P s') →
  Forall Q xs →
  ∀ s s', P s → for_each body xs s = Ok s' → P s'.
Proof.
  intros Hbody. induction 1 as [|x xs Hx _ IH]; intros s s' Hs; cbn [for_each].
  - by intros [= <-].
  - intros (s1 & H1 & Hrest)%bind_Ok. eauto.
Qed.

(** ** tracker *)

Section tracker_facts.
Import Tracker.
Open Scope Qc_scope.

Lemma zero_values_lookup names k :
  zero_values names !! k = if decide (k ∈ names) then Some 0 else None.
Proof.
  unfold zero_values.
  assert (∀ d : gmap string Qc,
    foldl (λ d name, <[name := 0]> d) d names !! k
    = if decide (k ∈ names) then Some 0 else d !! k) as Hgen.
  { induction names as [|n names IH]; intros d; simpl.
    - destruct (decide (k ∈ [])) as [Hin|_]; [by apply elem_of_nil in Hin|done].
    - rewrite IH. destruct (decide (k ∈ names)) as [Hin|Hnin];
        destruct (decide (k ∈ n :: names)) as [Hin'|Hnin']; try done.
      + exfalso. apply Hnin'. by right.
      + apply elem_of_cons in Hin' as [->|?]; [|done].
        by rewrite lookup_insert_eq.
      + rewrite lookup_insert_ne; [done|]. intros ->. apply Hnin'. by left. }
  rewrite Hgen. by rewrite lookup_empty.
Qed.

Lemma dict_get_cons k v nv n :
  dict_get ((k, v) :: nv) n = if decide (k = n) then Some v else dict_get nv n.
Proof. unfold dict_get. simpl. by rewrite lookup_insert. Qed.

Lemma add_value_known c t k v old :
  values t !! k = Some old →
  add_value c t (k, v)
  = Ok {| names := names t;
          values := <[k := old + v * c]> (values t);
          counter := counter t; create_time := create_time t |}.
Proof. intros Hold. unfold add_value. cbn [fst snd]. by rewrite Hold. Qed.

(** The loop of [update] on a dict whose keys the tracker knows. *)
Lemma add_values_spec c nv :
  NoDup nv.*1 → ∀ t,
  (∀ k, k ∈ nv.*1 → is_Some (values t !! k)) →
  ∃ t', for_each (add_value c) nv t = Ok t'
        ∧ names t' = names t ∧ counter t' = counter t
        ∧ ∀ n, values t' !! n =
               match dict_get nv n with
               | Some v => (λ old, old + v * c) <$> values t !! n
               | None => values t !! n
               end.
Proof.
  induction nv as [|[k v] nv IH]; intros Hnd t Hknown.
  - exists t. by repeat split.
  - rewrite fmap_cons in Hnd, Hknown. cbn [fst] in Hnd, Hknown.
    apply NoDup_cons in Hnd as [Hk Hnd].
    destruct (Hknown k) as [old Hold]; [by left|].
    cbn [for_each]. rewrite (add_value_known c t k v old Hold), bind_ret_l.
    set (t1 := {| names := names t;
                  values := <[k := old + v * c]> (values t);
                  counter := counter t; create_time := create_time t |}).
    destruct (IH Hnd t1) as (t' & Hrun & Hn & Hc & Hv).
    { intros k' Hk'. subst t1. cbn [values].
      destruct (decide (k = k')) as [->|Hne].
      - rewrite lookup_insert_eq. eauto.
      - rewrite lookup_insert_ne by done. apply Hknown. by right. }
    exists t'. repeat split; [done..|].
    intros n. rewrite Hv, dict_get_cons. subst t1. cbn [values].
    destruct (decide (k = n)) as [->|Hne].
    + unfold dict_get. rewrite (not_elem_of_list_to_map_1 _ n) by done.
      by rewrite lookup_insert_eq, Hold.
    + by rewrite lookup_insert_ne by done.
Qed.

Lemma update_spec t nv c :
  tracks t → known_call (names t) (nv, c) →
  ∃ t', update t nv c = Ok t'
        ∧ names t' = names t ∧ counter t' = counter t + c ∧ tracks t'
        ∧ ∀ n, values t' !! n =
               match dict_get nv n with
               | Some v => (λ old, old + v * c) <$> values t !! n
               | None => values t !! n
               end.
Proof.
  intros Ht [Hnd Hsub]. simpl in *. unfold update.
  edestruct (add_values_spec c nv Hnd) as (t' & Hrun & Hn & Hc & Hv);
    [|exists t'; split; [exact Hrun|]].
  { intros k Hk. simpl. apply Ht. by apply Hsub. }
  simpl in *. split; [done|]. split; [done|]. split; [|done].
  intros k. rewrite Hv, Hn, <-(Ht k).
  destruct (dict_get nv k); [|done]. by rewrite fmap_is_Some.
Qed.

Lemma updates_spec name calls vs :
  Forall2 (λ call v, dict_get call.1 name = Some v) calls vs →
  ∀ t a,
  tracks t → Forall (known_call (names t)) calls →
  values t !! name = Some a →
  ∃ t', updates t calls = Ok t'
        ∧ names t' = names t ∧ tracks t'
        ∧ values t' !! name = Some (a + weighted_sum (zip vs calls.*2))
        ∧ counter t' = counter t + total_count calls.*2.
Proof.
  induction 1 as [|[nv c] v calls vs Hv _ IH]; intros t a Ht Hwf Ha.
  - exists t. simpl. split; [done|]. split; [done|]. split; [done|].
    split; [rewrite Ha; f_equal|]; ring.
  - apply Forall_cons in Hwf as [Hcall Hwf]. cbn [fst] in Hv.
    destruct (update_spec t nv c Ht Hcall) as (t1 & Hrun & Hn & Hc & Ht1 & Hval).
    unfold updates. cbn [for_each fst snd]. rewrite Hrun, bind_ret_l.
    destruct (IH t1 (a + v * c)) as (t' & Hrun' & Hn' & Ht' & Hval' & Hc');
      [done|by rewrite Hn|by rewrite Hval, Hv, Ha|].
    exists t'. split; [exact Hrun'|].
    split; [congruence|]. split; [done|].
    rewrite fmap_cons. cbn [zip zip_with weighted_sum total_count fst snd].
    split.
    + rewrite Hval'. f_equal. ring.
    + rewrite Hc', Hc. ring.
Qed.

Lemma add_value_untracked c name t item t' :
  values t !! name = None → add_value c t item = Ok t' →
  values t' !! name = None.
Proof.
  intros Hname. unfold add_value.
  destruct (values t !! item.1) as [old|] eqn:Hold; [|done].
  intros [= <-]. cbn [values]. rewrite lookup_insert_ne; [done|].
  intros Heq. rewrite Heq in Hold. congruence.
Qed.

Lemma updates_untracked name calls t t' :
  values t !! name = None → updates t calls = Ok t' →
  values t' !! name = None.
Proof.
  intros H0 Hrun.
  eapply (for_each_invariant (λ s, values s !! name = None));
    [|exact H0|exact Hrun].
  intros s [nv c] s1 Hs. unfold update. cbn [fst snd]. intros Hloop.
  exact (for_each_invariant (λ s, values s !! name = None) (add_value c) nv
           (λ s x s', add_value_untracked c name s x s')
           (mk_tracker _ _ _ _) _ Hs Hloop).
Qed.

Lemma init_spec names now t :
  init names now = Ok t →
  Tracker.names t = names ∧ counter t = 0 ∧ tracks t
  ∧ ∀ k, k ∈ names → values t !! k = Some 0.
Proof.
  unfold init, py_assert. case_bool_decide; simpl; [|done].
  intros [= <-]. cbn [reset Tracker.names counter values].
  split; [done|]. split; [done|]. split.
  - intros k. cbn [reset Tracker.names counter values].
    rewrite zero_values_lookup.
    destruct (decide (k ∈ names)) as [Hin|Hnin]; split; done.
  - intros k Hk. rewrite zero_values_lookup. by rewrite decide_True.
Qed.

(** C6: for a name of the construction set and any sequence of [update]
    calls that supply it (each call a dict of tracked names), the calls
    succeed and indexing the tracker by the name gives the sum of
    [value * count] divided by the sum of [count] (and [0] when that sum
    of counts is zero); before any update indexing gives [0] for every
    name; and the length of the tracker is the number of names. *)
Theorem tracker_running_mean names now calls vs name :
  name ∈ names →
  Forall (known_call names) calls →
  Forall2 (λ call v, dict_get call.1 name = Some v) calls vs →
  ∃ t0, init names now = Ok t0
    ∧ (∀ n, getitem t0 n = 0)
    ∧ len t0 = length names
    ∧ ∃ t, updates t0 calls = Ok t
        ∧ len t = length names
        ∧ getitem t name =
            if bool_decide (total_count calls.*2 ≠ 0)
            then weighted_sum (zip vs calls.*2) / total_count calls.*2
            else 0.
Proof.
  intros Hname Hknown Hvs.
  assert (∃ t0, init names now = Ok t0) as [t0 Hinit].
  { unfold init, py_assert. rewrite bool_decide_true; [by eexists|].
    destruct names; [by apply elem_of_nil in Hname|simpl; lia]. }
  destruct (init_spec _ _ _ Hinit) as (Hn & Hc & Ht & Hz).
  exists t0. split; [done|]. split; [|split].
  - intros n. unfold getitem. rewrite Hc. by rewrite bool_decide_false by auto.
  - unfold len. by rewrite Hn.
  - destruct (updates_spec name calls vs Hvs t0 0) as (t & Hrun & Hn' & _ & Hv & Hc');
      [done|by rewrite Hn|by apply Hz|].
    exists t. split; [done|]. split; [unfold len; congruence|].
    unfold getitem. rewrite Hv, Hc', Hc. cbn [default].
    replace (0 + total_count calls.*2) with (total_count calls.*2) by ring.
    replace (0 + weighted_sum (zip vs calls.*2))
      with (weighted_sum (zip vs calls.*2)) by ring.
    done.
Qed.

Lemma tracker_running_mean_witness :
  ∃ t0, init ["log_loss"] 0 = Ok t0
    ∧ (∀ n, getitem t0 n = 0)
    ∧ len t0 = 1%nat
    ∧ ∃ t, updates t0 [([("log_loss", Qc_of_Z 2)], Qc_of_Z 3);
                       ([("log_loss", Qc_of_Z 4)], Qc_of_Z 1)] = Ok t
        ∧ len t = 1%nat
        ∧ getitem t "log_loss" =
            if bool_decide (total_count [Qc_of_Z 3; Qc_of_Z 1] ≠ 0)
            then weighted_sum [(Qc_of_Z 2, Qc_of_Z 3); (Qc_of_Z 4, Qc_of_Z 1)]
                 / total_count [Qc_of_Z 3; Qc_of_Z 1]
            else 0.
Proof.
  apply (tracker_running_mean ["log_loss"] 0
           [([("log_loss", Qc_of_Z 2)], Qc_of_Z 3);
            ([("log_loss", Qc_of_Z 4)], Qc_of_Z 1)]
           [Qc_of_Z 2; Qc_of_Z 4] "log_loss").
  - by left.
  - repeat (apply Forall_cons_2 || apply Forall_nil_2);
      (split; cbn; [apply NoDup_singleton|set_solver]).
  - repeat (apply Forall2_cons_2 || apply Forall2_nil_2); reflexivity.
Defined.

(** C10: indexing a tracker by a name that is not in the construction
    set gives [0], before any update and after any updates the tracker
    has gone through. *)
Theorem tracker_unknown_name names now t0 calls t name :
  init names now = Ok t0 →
  name ∉ names →
  updates t0 calls = Ok t →
  getitem t0 name = 0 ∧ getitem t name = 0.
Proof.
  intros Hinit Hname Hrun.
  destruct (init_spec _ _ _ Hinit) as (Hn & Hc & Ht & _).
  assert (values t0 !! name = None) as H0.
  { apply eq_None_not_Some. rewrite (Ht name). by rewrite Hn. }
  pose proof (updates_untracked name calls t0 t H0 Hrun) as H1.
  unfold getitem. rewrite H0, H1. cbn [default].
  split; case_bool_decide; try done; unfold Qcdiv; ring.
Qed.

Lemma tracker_unknown_name_witness :
  ∃ t0 t,
    init ["log_loss"] 0 = Ok t0
    ∧ updates t0 [([("log_loss", Qc_of_Z 2)], Qc_of_Z 3)] = Ok t
    ∧ getitem t0 "kl" = 0 ∧ getitem t "kl" = 0.
Proof.
  eexists _, _. split; [reflexivity|]. split; [reflexivity|].
  eapply (tracker_unknown_name ["log_loss"] 0 _
            [([("log_loss", Qc_of_Z 2)], Qc_of_Z 3)] _ "kl").
  - reflexivity.
  - by intros [=]%list_elem_of_singleton.
  - reflexivity.
Defined.

End tracker_facts.

(** ** prior_buffer: the refresh loop *)

Section update_buffer_facts.
Import PriorBuffer.

Lemma list_comp_Ok_Forall2 {X Y} (f : X → result Y) xs ys :
  list_comp f xs = Ok ys → Forall2 (λ x y, f x = Ok y) xs ys.
Proof.
  revert ys. induction xs as [|x xs IH]; intros ys; cbn [list_comp].
  - intros [= <-]. constructor.
  - intros (y & Hy & (ys' & Hys & [= <-])%bind_Ok)%bind_Ok.
    constructor; [done|by apply IH].
Qed.

Lemma list_comp_id {X Y} (f : X → result Y) (g : X → Y) xs :
  Forall (λ x, f x = Ok (g x)) xs → list_comp f xs = Ok (g <$> xs).
Proof.
  induction 1 as [|x xs Hx _ IH]; [done|].
  cbn [list_comp]. by rewrite Hx, bind_ret_l, IH.
Qed.

Lemma broadcast_to_length {X} n (xs ys : list X) :
  broadcast_to n xs = Ok ys → length ys = n.
Proof.
  unfold broadcast_to. case_decide as Hn; [by intros [= <-]|].
  destruct xs as [|x [|??]]; [done| |done].
  intros [= <-]. apply length_replicate.
Qed.

Lemma broadcast_to_same {X} n (xs : list X) :
  length xs = n → broadcast_to n xs = Ok xs.
Proof. intros Hn. unfold broadcast_to. by rewrite decide_True. Qed.

(** Copying into an array leaves its shape as it is. *)
Lemma np_copy_into_shape target value out :
  np_copy_into target value = Ok out → fits target out.
Proof.
  unfold np_copy_into, fits.
  intros (rows & Hrows%broadcast_to_length & Hout%list_comp_Ok_Forall2)%bind_Ok.
  revert rows out Hrows Hout.
  induction target as [|t target IH]; intros [|r rows] out Hrows Hout;
    try done; cbn [zip zip_with] in Hout.
  - inversion Hout. constructor.
  - inversion Hout as [|? o ? outs Ho Houts]; subst.
    constructor; [by apply broadcast_to_length in Ho|].
    apply (IH rows); [by injection Hrows|done].
Qed.

(** Copying an array of the shape of the target gives that array. *)
Lemma np_copy_into_fits target value :
  fits target value → np_copy_into target value = Ok value.
Proof.
  unfold fits, np_copy_into. intros Hfits.
  rewrite broadcast_to_same, bind_ret_l
    by (symmetry; exact (Forall2_length _ _ _ Hfits)).
  induction Hfits as [|t v target value Hv _ IH]; [done|].
  cbn [zip zip_with list_comp fst snd].
  by rewrite broadcast_to_same, bind_ret_l, IH by done.
Qed.

Lemma assign_slot_rows kind slot value slot' :
  assign_slot kind slot value = Ok slot' →
  length value = length slot → length slot' = length slot.
Proof.
  destruct kind; cbn [assign_slot].
  - intros Hfits%np_copy_into_shape _.
    symmetry. exact (Forall2_length _ _ _ Hfits).
  - by intros [= <-].
Qed.

Lemma assign_slot_fits kind slot value :
  (kind = Dense → fits slot value) → assign_slot kind slot value = Ok value.
Proof.
  destruct kind; cbn [assign_slot]; [|done].
  intros Hfits. by apply np_copy_into_fits, Hfits.
Qed.

(** What one turn of the loop does when it raises nothing. *)
Lemma update_slot_Ok self p i l self' :
  update_slot self (p, i, l) = Ok self' →
  ∃ c, let new_i := Z.to_nat (i `mod` len self) in
    len self ≠ 0 ∧ freq self ≠ 0
    ∧ count self !! new_i = Some c
    ∧ (if decide (c `mod` freq self = 0)
       then ∃ slot slot',
              buffer self !! new_i = Some slot
              ∧ Z.of_nat (length slot) = l
              ∧ assign_slot (buffer_layout self) slot (rows_upto p l)
                = Ok slot'
              ∧ buffer self' = <[new_i := slot']> (buffer self)
       else buffer self' = buffer self)
    ∧ count self' = <[new_i := c + 1]> (count self)
    ∧ dim self' = dim self ∧ freq self' = freq self ∧ path self' = path self
    ∧ buffer_layout self' = buffer_layout self.
Proof.
  unfold update_slot, py_mod, py_index, py_assert.
  destruct (decide (len self = 0)) as [|Hn]; [done|]. rewrite bind_ret_l.
  destruct (count self !! Z.to_nat (i `mod` len self)) as [c|] eqn:Hc; [|done].
  rewrite bind_ret_l.
  destruct (decide (freq self = 0)) as [|Hf]; [done|]. rewrite bind_ret_l.
  destruct (decide (c `mod` freq self = 0)) as [Hr|Hr].
  - destruct (buffer self !! Z.to_nat (i `mod` len self)) as [slot|] eqn:Hs;
      [|done].
    rewrite bind_ret_l. case_bool_decide as Hl; [|done].
    rewrite !bind_ret_l.
    destruct (assign_slot (buffer_layout self) slot (rows_upto p l))
      as [slot'|] eqn:Hslot'; [|done].
    rewrite !bind_ret_l. intros [= <-]. exists c. cbn.
    rewrite decide_True by done.
    split; [done|]. split; [done|]. split; [done|].
    split; [by exists slot, slot'|done].
  - rewrite bind_ret_l. intros [= <-]. exists c. cbn.
    rewrite decide_False by done.
    split; [done|]. split; [done|]. split; [done|]. done.
Qed.

Lemma update_slot_lengths self pil self' :
  update_slot self pil = Ok self' →
  length (buffer self') = length (buffer self)
  ∧ length (count self') = length (count self)
  ∧ freq self' = freq self.
Proof.
  destruct pil as [[p i] l].
  intros (c & _ & _ & _ & Hb & Hc & _ & Hf & _)%update_slot_Ok.
  rewrite Hc, length_insert. split; [|done].
  case_decide; [|by rewrite Hb].
  destruct Hb as (slot & slot' & _ & _ & _ & ->). by rewrite length_insert.
Qed.

Lemma update_loop_lengths ts self self' :
  for_each update_slot ts self = Ok self' →
  length (buffer self') = length (buffer self)
  ∧ length (count self') = length (count self)
  ∧ freq self' = freq self.
Proof.
  apply (for_each_invariant
    (λ s, length (buffer s) = length (buffer self)
          ∧ length (count s) = length (count self)
          ∧ freq s = freq self)); [|done].
  intros s x s' (Hb & Hc & Hf) (Hb' & Hc' & Hf')%update_slot_lengths.
  repeat split; congruence.
Qed.

Lemma update_calls_lengths calls self self' :
  update_calls self calls = Ok self' →
  length (buffer self') = length (buffer self)
  ∧ length (count self') = length (count self).
Proof.
  apply (for_each_invariant
    (λ s, length (buffer s) = length (buffer self)
          ∧ length (count s) = length (count self))); [|done].
  intros s x s' (Hb & Hc) (Hb' & Hc' & _)%update_loop_lengths.
  split; congruence.
Qed.

Lemma rows_upto_nonneg p l : 0 ≤ l → rows_upto p l = take (Z.to_nat l) p.
Proof. intros Hl. unfold rows_upto. by rewrite decide_True. Qed.

Lemma update_slot_rows self pil self' :
  enough_rows pil → update_slot self pil = Ok self' →
  length <$> buffer self' = length <$> buffer self.
Proof.
  destruct pil as [[p i] l]. unfold enough_rows. cbn [fst snd]. intros Hrows.
  intros (c & _ & _ & _ & Hb & _)%update_slot_Ok.
  case_decide as Hr; [|by rewrite Hb].
  destruct Hb as (slot & slot' & Hs & Hl & Hslot' & ->).
  rewrite list_fmap_insert. apply list_insert_id.
  rewrite list_lookup_fmap, Hs. cbn. f_equal. symmetry.
  apply (assign_slot_rows _ _ _ _ Hslot').
  rewrite rows_upto_nonneg, length_take by lia. lia.
Qed.

Lemma update_calls_rows calls self self' :
  Forall (λ c, Forall enough_rows (triples c.1.1 c.1.2 c.2)) calls →
  update_calls self calls = Ok self' →
  length <$> buffer self' = length <$> buffer self.
Proof.
  intros Hcalls.
  apply (for_each_invariant_in
    (λ s, length <$> buffer s = length <$> buffer self)
    (λ c, Forall enough_rows (triples c.1.1 c.1.2 c.2))); [|done..].
  intros s c s' Hc Hs. unfold update_buffer.
  apply (for_each_invariant_in
    (λ s, length <$> buffer s = length <$> buffer self) enough_rows);
    [|done..].
  intros s1 pil s2 Hpil Hs1 Hstep.
  by rewrite (update_slot_rows _ _ _ Hpil Hstep).
Qed.

Lemma update_slot_keeps self pil self' :
  update_slot self pil = Ok self' →
  dim self' = dim self ∧ freq self' = freq self ∧ path self' = path self
  ∧ buffer_layout self' = buffer_layout self.
Proof.
  destruct pil as [[p i] l].
  by intros (c & _ & _ & _ & _ & _ & Hd & Hf & Hp & Hk)%update_slot_Ok.
Qed.

Lemma update_loop_keeps ts self self' :
  for_each update_slot ts self = Ok self' →
  dim self' = dim self ∧ freq self' = freq self ∧ path self' = path self
  ∧ buffer_layout self' = buffer_layout self.
Proof.
  apply (for_each_invariant
    (λ s, dim s = dim self ∧ freq s = freq self ∧ path s = path self
          ∧ buffer_layout s = buffer_layout self)); [|done].
  intros s x s' (Hd & Hf & Hp & Hk) (Hd' & Hf' & Hp' & Hk')%update_slot_keeps.
  repeat split; congruence.
Qed.

Lemma triples_take k ixs post seq_len :
  triples (take k ixs) (take k post) (take k seq_len)
  = take k (triples ixs post seq_len).
Proof. unfold triples. by rewrite 2!zip_with_take. Qed.

Lemma triples_drop k ixs post seq_len :
  triples (drop k ixs) (drop k post) (drop k seq_len)
  = drop k (triples ixs post seq_len).
Proof. unfold triples. by rewrite 2!zip_with_drop. Qed.

(** A call for a single triple is one turn of the loop. *)
Lemma update_buffer_single self i p l :
  update_buffer self [i] [p] [l] = update_slot self (p, i, l).
Proof.
  unfold update_buffer. cbn [triples zip zip_with for_each].
  by destruct (update_slot self (p, i, l)).
Qed.

(** One turn of the loop on a slot that is not due for a refresh: only
    the counter changes. *)
Lemma update_slot_not_due self p i l c :
  buffer self ≠ [] → freq self ≠ 0 →
  count self !! Z.to_nat (i `mod` len self) = Some c →
  c `mod` freq self ≠ 0 →
  update_slot self (p, i, l)
  = Ok (with_content self (buffer self)
          (<[Z.to_nat (i `mod` len self) := c + 1]> (count self))).
Proof.
  intros Hb Hf Hc Hr. unfold update_slot, py_mod, py_index.
  rewrite decide_False
    by (unfold len; destruct (buffer self); [done|cbn; lia]).
  rewrite bind_ret_l, Hc, bind_ret_l, decide_False by done.
  rewrite bind_ret_l, decide_False by done. by rewrite bind_ret_l.
Qed.

(** One turn of the loop on a slot that is due, with an array that has
    the length of the slot and, for a dense buffer, its shape: the slot
    takes the first [l] rows of the array. *)
Lemma update_slot_due self p i l c slot :
  freq self ≠ 0 →
  count self !! Z.to_nat (i `mod` len self) = Some c →
  buffer self !! Z.to_nat (i `mod` len self) = Some slot →
  c `mod` freq self = 0 →
  Z.of_nat (length slot) = l →
  (buffer_layout self = Dense → fits slot (take (Z.to_nat l) p)) →
  update_slot self (p, i, l)
  = Ok (with_content self
          (<[Z.to_nat (i `mod` len self) := take (Z.to_nat l) p]> (buffer self))
          (<[Z.to_nat (i `mod` len self) := c + 1]> (count self))).
Proof.
  intros Hf Hc Hs Hr Hl Hfits. unfold update_slot, py_mod, py_index, py_assert.
  rewrite decide_False
    by (unfold len; destruct (buffer self);
        [by rewrite lookup_nil in Hs|cbn; lia]).
  rewrite bind_ret_l, Hc, bind_ret_l, decide_False by done.
  rewrite bind_ret_l, decide_True by done.
  rewrite Hs, bind_ret_l, bool_decide_true by done. rewrite bind_ret_l.
  rewrite rows_upto_nonneg by lia.
  rewrite (assign_slot_fits _ _ _ Hfits). by rewrite !bind_ret_l.
Qed.

(** C1: take a call of [update_buffer] on a buffer that has slots, a
    counter for each of them and a period that is not zero, and a
    triple [(p, i, l)] of the call; let [before] be the buffer object
    when the triple is reached, that is, after the call for the triples
    ahead of it.  Then, whatever the integer [i], the slot
    [i mod len(buffer)] exists and has a counter [c], and processing
    the triple does this.  When [c] is not a multiple of the period,
    the content stays as it is and the counter becomes [c + 1].  When
    [c] is a multiple of the period and the slot has length [l], the
    slot takes the first [l] rows of [p] and the counter becomes
    [c + 1]; for a dense buffer, into which numpy copies with
    broadcasting, this holds when the first [l] rows of [p] have the
    shape of the slot.  The call for the triples up to this one leaves
    the object so obtained, and the whole call goes on from it with the
    triples that follow. *)
Theorem update_buffer_refresh_policy self ixs post seq_len k p i l before :
  triples ixs post seq_len !! k = Some (p, i, l) →
  update_buffer self (take k ixs) (take k post) (take k seq_len) = Ok before →
  buffer self ≠ [] →
  freq self ≠ 0 →
  length (count self) = length (buffer self) →
  let new_i := Z.to_nat (i `mod` len self) in
  ∃ c slot,
    count before !! new_i = Some c
    ∧ buffer before !! new_i = Some slot
    ∧ (c `mod` freq self ≠ 0 →
       update_buffer before [i] [p] [l]
       = Ok (with_content before (buffer before)
               (<[new_i := c + 1]> (count before))))
    ∧ (c `mod` freq self = 0 →
       Z.of_nat (length slot) = l →
       (buffer_layout self = Dense → fits slot (take (Z.to_nat l) p)) →
       update_buffer before [i] [p] [l]
       = Ok (with_content before
               (<[new_i := take (Z.to_nat l) p]> (buffer before))
               (<[new_i := c + 1]> (count before))))
    ∧ update_buffer self (take (S k) ixs) (take (S k) post)
        (take (S k) seq_len)
      = update_buffer before [i] [p] [l]
    ∧ update_buffer self ixs post seq_len
      = (after ← update_buffer before [i] [p] [l];
         update_buffer after (drop (S k) ixs) (drop (S k) post)
           (drop (S k) seq_len)).
Proof.
  intros Hk Hbefore Hslots Hfreq Hcount new_i.
  unfold update_buffer in Hbefore. rewrite triples_take in Hbefore.
  destruct (update_loop_lengths _ _ _ Hbefore) as (Hlb & Hlc & Hfb).
  destruct (update_loop_keeps _ _ _ Hbefore) as (_ & _ & _ & Hkind).
  assert (len before = len self) as Hlen by (unfold len; by rewrite Hlb).
  subst new_i. rewrite <-Hlen, <-Hfb, <-Hkind.
  assert (buffer before ≠ []) as Hslots'.
  { intros Hnil. rewrite Hnil in Hlb. by destruct (buffer self). }
  assert (freq before ≠ 0) as Hfreq' by congruence.
  assert (Z.to_nat (i `mod` len before) < length (buffer before))%nat as Hin.
  { unfold len.
    assert (0 < Z.of_nat (length (buffer before)))
      by (destruct (buffer before); [done|cbn; lia]).
    pose proof (Z.mod_pos_bound i (Z.of_nat (length (buffer before)))). lia. }
  destruct (lookup_lt_is_Some_2 (count before) _ ltac:(rewrite Hlc, Hcount, <-Hlb; exact Hin))
    as [c Hc].
  destruct (lookup_lt_is_Some_2 (buffer before) _ Hin) as [slot Hs].
  exists c, slot. split; [done|]. split; [done|].
  rewrite update_buffer_single.
  split; [|split; [|split]].
  - intros Hr. by apply update_slot_not_due.
  - intros Hr Hl Hfits. by apply (update_slot_due before p i l c slot).
  - unfold update_buffer. rewrite triples_take.
    rewrite (take_S_r _ _ _ Hk), for_each_app, Hbefore, bind_ret_l.
    cbn [for_each]. by destruct (update_slot before (p, i, l)).
  - unfold update_buffer at 1.
    rewrite <-(take_drop_middle _ _ _ Hk), for_each_app, Hbefore, bind_ret_l.
    cbn [for_each]. unfold update_buffer. by rewrite triples_drop.
Qed.

Lemma update_buffer_refresh_policy_witness :
  ∃ c slot,
    count Cases.after_first !! 0%nat = Some c
    ∧ buffer Cases.after_first !! 0%nat = Some slot
    ∧ (c `mod` 3 ≠ 0 →
       update_buffer Cases.after_first [0] [Cases.post1] [1]
       = Ok (with_content Cases.after_first (buffer Cases.after_first)
               (<[0%nat := c + 1]> (count Cases.after_first))))
    ∧ (c `mod` 3 = 0 →
       Z.of_nat (length slot) = 1 →
       (Ragged = Dense → fits slot (take 1 Cases.post1)) →
       update_buffer Cases.after_first [0] [Cases.post1] [1]
       = Ok (with_content Cases.after_first
               (<[0%nat := take 1 Cases.post1]> (buffer Cases.after_first))
               (<[0%nat := c + 1]> (count Cases.after_first))))
    ∧ update_buffer Cases.fresh_buffer [2; 0] [Cases.post3; Cases.post1] [2; 1]
      = update_buffer Cases.after_first [0] [Cases.post1] [1]
    ∧ update_buffer Cases.fresh_buffer [2; 0] [Cases.post3; Cases.post1] [2; 1]
      = (after ← update_buffer Cases.after_first [0] [Cases.post1] [1];
         update_buffer after [] [] []).
Proof.
  apply (update_buffer_refresh_policy Cases.fresh_buffer [2; 0]
           [Cases.post3; Cases.post1] [2; 1] 1 Cases.post1 0 1
           Cases.after_first); [reflexivity|reflexivity|done|done|reflexivity].
Defined.

(** The refresh policy on the case of the specification: with period 3
    a slot addressed four times in a row is written at its counts 0 and
    3 only, and the index [len(buffer)] addresses slot 0. *)
Example update_buffer_period_three :
  let v k : matrix := [[Cases.q k]; [Cases.q k]] in
  update_calls Cases.fresh_buffer
    [([0], [v 1], [2]); ([2], [v 2], [2]); ([0], [v 3], [2])]
  = Ok {| dim := 1; freq := 3; path := None; buffer_layout := Ragged;
          buffer := [v 1; [[0%Qc]]]; count := [3; 0] |}
  ∧ update_calls Cases.fresh_buffer
      [([0], [v 1], [2]); ([2], [v 2], [2]); ([0], [v 3], [2]);
       ([2], [v 4], [2])]
    = Ok {| dim := 1; freq := 3; path := None; buffer_layout := Ragged;
            buffer := [v 4; [[0%Qc]]]; count := [4; 0] |}.
Proof. intros v. split; reflexivity. Qed.

(** A dense buffer of one slot of two rows: an array of one row is
    broadcast to both rows of the slot, and an array without rows is
    refused; an array of objects takes either as the new slot. *)
Example update_buffer_dense_broadcast :
  let dense := {| dim := 1; freq := 3; path := None; buffer_layout := Dense;
                  buffer := [[[0%Qc]; [0%Qc]]]; count := [0] |} in
  let ragged := {| dim := 1; freq := 3; path := None; buffer_layout := Ragged;
                   buffer := [[[0%Qc]; [0%Qc]]]; count := [0] |} in
  update_buffer dense [0] [Cases.post1] [2]
  = Ok {| dim := 1; freq := 3; path := None; buffer_layout := Dense;
          buffer := [[[Cases.q 5]; [Cases.q 5]]]; count := [1] |}
  ∧ update_buffer dense [0] [[]] [2] = Raise ValueError
  ∧ update_buffer ragged [0] [Cases.post1] [2]
    = Ok {| dim := 1; freq := 3; path := None; buffer_layout := Ragged;
            buffer := [[[Cases.q 5]]]; count := [1] |}
  ∧ update_buffer ragged [0] [[]] [2]
    = Ok {| dim := 1; freq := 3; path := None; buffer_layout := Ragged;
            buffer := [[]]; count := [1] |}.
Proof. intros dense ragged. repeat split; reflexivity. Qed.

(** C3, as the code has it: the length is compared only when the slot
    is due for a refresh.  When a triple is reached whose length differs
    from that of its slot, the call fails with an assertion failure if
    the counter of the slot is a multiple of [freq]; otherwise the
    triple is accepted, the slot is left as it is and its counter goes
    up by one. *)
Theorem update_buffer_length_check self ixs post seq_len k p i l before c slot :
  triples ixs post seq_len !! k = Some (p, i, l) →
  for_each update_slot (take k (triples ixs post seq_len)) self = Ok before →
  count before !! Z.to_nat (i `mod` len before) = Some c →
  buffer before !! Z.to_nat (i `mod` len before) = Some slot →
  freq before ≠ 0 →
  Z.of_nat (length slot) ≠ l →
  if decide (c `mod` freq before = 0)
  then update_buffer self ixs post seq_len = Raise AssertionError
  else update_slot before (p, i, l)
       = Ok {| dim := dim before; freq := freq before; path := path before;
               buffer_layout := buffer_layout before;
               buffer := buffer before;
               count := <[Z.to_nat (i `mod` len before) := c + 1]>
                          (count before) |}.
Proof.
  intros Hk Hbefore Hc Hs Hf Hl.
  assert (len before ≠ 0) as Hn.
  { unfold len. destruct (buffer before); [by rewrite lookup_nil in Hs|done]. }
  assert (update_slot before (p, i, l) =
          if decide (c `mod` freq before = 0) then Raise AssertionError
          else Ok {| dim := dim before; freq := freq before;
                     path := path before;
                     buffer_layout := buffer_layout before;
                     buffer := buffer before;
                     count := <[Z.to_nat (i `mod` len before) := c + 1]>
                                (count before) |}) as Hstep.
  { unfold update_slot, py_mod, py_index, py_assert.
    rewrite decide_False by done. rewrite bind_ret_l, Hc, bind_ret_l.
    rewrite decide_False by done. rewrite bind_ret_l.
    destruct (decide (c `mod` freq before = 0)); [|done].
    rewrite Hs, bind_ret_l. by rewrite bool_decide_false by done. }
  destruct (decide (c `mod` freq before = 0)); [|done].
  unfold update_buffer.
  rewrite <-(take_drop_middle _ _ _ Hk), for_each_app, Hbefore, bind_ret_l.
  cbn [for_each]. by rewrite Hstep.
Qed.

Lemma update_buffer_length_check_witness :
  update_buffer Cases.fresh_buffer [0] [Cases.post3] [3] = Raise AssertionError.
Proof.
  apply (update_buffer_length_check Cases.fresh_buffer [0] [Cases.post3] [3]
           0 Cases.post3 0 3 Cases.fresh_buffer 0 [[0%Qc]; [0%Qc]]);
    try reflexivity; done.
Defined.

(** C3 as stated fails: slot 0 holds two rows and has been addressed
    once; a triple of length 1 for it is then accepted. *)
Lemma update_buffer_accepts_mismatch :
  update_buffer Cases.fresh_buffer [0] [Cases.post3] [2] = Ok Cases.after_first
  ∧ length <$> buffer Cases.after_first !! 0%nat = Some 2%nat
  ∧ update_buffer Cases.after_first [0] [Cases.post1] [1]
    = Ok Cases.after_second.
Proof. repeat split; reflexivity. Qed.

End update_buffer_facts.

(** ** prior_buffer: construction and persistence *)

#[global] Instance memfs_laws (data : Type) : FileSystemLaws (memfs data) data.
Proof.
  split.
  - intros s p e s'. cbn. case_bool_decide as Hd.
    + destruct e; [|done]. intros [= <-]. by rewrite bool_decide_true.
    + case_bool_decide; [done|]. intros [= <-]. cbn.
      rewrite bool_decide_true; [done|]. set_solver.
  - intros s p e s' q. cbn. intros Hmk Hq. apply bool_decide_eq_true in Hq.
    case_bool_decide as Hd.
    + destruct e; [|done]. injection Hmk as <-. by rewrite bool_decide_true.
    + case_bool_decide; [done|]. injection Hmk as <-. cbn.
      rewrite bool_decide_true; [done|]. set_solver.
  - intros s p d s'. cbn. case_bool_decide; [done|]. intros [= <-]. cbn.
    by rewrite lookup_insert_eq.
Qed.

#[global] Instance pickle_id_laws (obj : Type) : PickleLaws obj obj.
Proof. by split. Qed.

Section storage_facts.
Import PriorBuffer.
Context {value fs data : Type} `{FileSystem fs data}
        `{Pickle (layout * list matrix) data}.
Implicit Types w : @world value fs.

Lemma list_comp_length {X Y} (f : X → result Y) xs ys :
  list_comp f xs = Ok ys → length ys = length xs.
Proof.
  revert ys. induction xs as [|x xs IH]; intros ys; cbn [list_comp].
  - by intros [= <-].
  - intros (y & _ & (ys' & Hys & [= <-])%bind_Ok)%bind_Ok.
    cbn. f_equal. by apply IH.
Qed.

Lemma np_zeros_nonneg rows dim :
  0 ≤ dim → np_zeros rows dim = Ok (replicate rows (replicate (Z.to_nat dim) 0%Qc)).
Proof. intros Hdim. unfold np_zeros. by rewrite decide_False by lia. Qed.

Lemma list_comp_zeros (inputs : list (list Z)) dim :
  0 ≤ dim →
  list_comp (λ r, np_zeros (length r) dim) inputs
  = Ok ((λ r, replicate (length r) (replicate (Z.to_nat dim) 0%Qc)) <$> inputs).
Proof.
  intros Hdim. induction inputs as [|r inputs IH]; [done|].
  cbn [list_comp]. by rewrite np_zeros_nonneg, bind_ret_l, IH.
Qed.

Lemma load_by_path self1 self2 w :
  path self1 = path self2 → load self1 w = load self2 w.
Proof. intros Hp. unfold load, the_path. by rewrite Hp. Qed.

Lemma path_present_missing w path :
  path_present w path = negb (path_missing w path).
Proof. destruct path; cbn; [by rewrite negb_involutive|done]. Qed.

(** Construction has two branches only. *)
Lemma init_two_branches w inputs dim freq name init_path :
  let path := derived_path name dim init_path in
  let made kind buffer :=
    {| dim := dim; freq := freq; path := path; buffer_layout := kind;
       buffer := buffer; count := replicate (length inputs) 0 |} in
  init w inputs dim freq name init_path
  = (if path_missing w path
     then zeros ← list_comp (λ r, np_zeros (length r) dim) inputs;
          Ok (w, made (np_asarray_layout zeros) zeros)
     else '(w', stored) ← load (made Dense []) w;
          Ok (w', made stored.1 stored.2)).
Proof.
  intros path made. unfold init. fold path.
  rewrite path_present_missing.
  destruct (path_missing w path); cbn [negb].
  - by destruct (list_comp _ inputs).
  - by rewrite (load_by_path _ (made Dense []) w).
Qed.

(** C2, as the code has it: construction takes the zero-initialising
    branch when the path is null or names no file, and the loading
    branch when it names a file; the third branch is never reached.  So
    a path that is not null and names no file is no error: with a
    dimension that is not negative, construction returns the zero
    buffer. *)
Theorem init_missing_path_is_fresh w inputs dim freq name init_path :
  let path := derived_path name dim init_path in
  let made kind buffer :=
    {| dim := dim; freq := freq; path := path; buffer_layout := kind;
       buffer := buffer; count := replicate (length inputs) 0 |} in
  init w inputs dim freq name init_path
  = (if path_missing w path
     then zeros ← list_comp (λ r, np_zeros (length r) dim) inputs;
          Ok (w, made (np_asarray_layout zeros) zeros)
     else '(w', stored) ← load (made Dense []) w;
          Ok (w', made stored.1 stored.2))
  ∧ (path_missing w path = true → 0 ≤ dim →
     init w inputs dim freq name init_path
     = Ok (w, made (np_asarray_layout
                      ((λ r, replicate (length r)
                               (replicate (Z.to_nat dim) 0%Qc)) <$> inputs))
                   ((λ r, replicate (length r) (replicate (Z.to_nat dim) 0%Qc))
                    <$> inputs))).
Proof.
  intros path made.
  pose proof (init_two_branches w inputs dim freq name init_path) as Hinit.
  cbv zeta in Hinit. fold path in Hinit. fold made in Hinit.
  split; [done|]. intros Hmiss Hdim.
  by rewrite Hinit, Hmiss, list_comp_zeros.
Qed.

(** C5, as the code has it: the counters are as many as the inputs,
    whichever branch built the buffer, and calls of [update_buffer] that
    complete keep the number of slots and of counters.  So the two
    lengths agree after zero-initialisation, and after loading exactly
    when the stored buffer has as many slots as there are inputs.  The
    rows of every slot stay as many as they were when each array handed
    to [update_buffer] has at least as many rows as its length says. *)
Theorem prior_buffer_lengths w inputs dim freq name init_path w' pb0 calls pb :
  init w inputs dim freq name init_path = Ok (w', pb0) →
  update_calls pb0 calls = Ok pb →
  let path := derived_path name dim init_path in
  length (count pb) = length inputs
  ∧ length (buffer pb) = length (buffer pb0)
  ∧ (path_missing w path = true → length (buffer pb) = length (count pb))
  ∧ (path_missing w path = false →
     ∃ w1 stored,
       load {| dim := dim; freq := freq; path := path;
               buffer_layout := Dense; buffer := []; count := [] |} w
       = Ok (w1, stored)
       ∧ buffer pb0 = stored.2
       ∧ (length (buffer pb) = length (count pb)
          ↔ length stored.2 = length inputs))
  ∧ (Forall (λ c, Forall enough_rows (triples c.1.1 c.1.2 c.2)) calls →
     length <$> buffer pb = length <$> buffer pb0).
Proof.
  intros Hinit Hcalls path.
  destruct (update_calls_lengths _ _ _ Hcalls) as [Hb Hc].
  pose proof (init_two_branches w inputs dim freq name init_path) as Hbranch.
  fold path in Hbranch. cbv zeta in Hbranch. rewrite Hinit in Hbranch.
  assert (length (count pb0) = length inputs) as Hc0.
  { destruct (path_missing w path); symmetry in Hbranch.
    - apply bind_Ok in Hbranch as (zeros & _ & [= _ <-]).
      apply length_replicate.
    - apply bind_Ok in Hbranch as ([w1 stored] & _ & [= _ <-]).
      apply length_replicate. }
  split; [congruence|]. split; [done|]. split; [|split].
  - intros Hmiss. rewrite Hmiss in Hbranch. symmetry in Hbranch.
    apply bind_Ok in Hbranch as (zeros & Hz & [= _ <-]).
    apply list_comp_length in Hz. cbn in Hb, Hc, Hc0. congruence.
  - intros Hmiss. rewrite Hmiss in Hbranch. symmetry in Hbranch.
    apply bind_Ok in Hbranch as ([w1 stored] & Hload & [= _ <-]).
    exists w1, stored. split.
    { by rewrite <-Hload; apply load_by_path. }
    split; [done|]. cbn in Hb, Hc, Hc0. by rewrite Hb, Hc, Hc0.
  - intros Hrows. by apply (update_calls_rows calls).
Qed.

(** Reading the file that [save] wrote. *)
Lemma save_then_load `{!FileSystemLaws fs data}
    `{!PickleLaws (layout * list matrix) data} self other w w' :
  save self w = Ok w' →
  path other = path self →
  ∃ p lines,
    path self = Some p
    ∧ Experiment.log (w_expe w') = Some lines
    ∧ load other w'
      = Ok ({| w_fs := w_fs w';
               w_expe :=
                 {| Experiment.config := Experiment.config (w_expe w');
                    Experiment.experiments_prefix :=
                      Experiment.experiments_prefix (w_expe w');
                    Experiment.logfile_name :=
                      Experiment.logfile_name (w_expe w');
                    Experiment.default_config :=
                      Experiment.default_config (w_expe w');
                    Experiment.log :=
                      Some (lines ++ ["prior loaded from: " +:+ p]) |} |},
            (buffer_layout self, buffer self)).
Proof.
  intros Hsave Hpath. unfold save, load, the_path in *. rewrite Hpath.
  destruct (path self) as [p|]; [|done]. rewrite !bind_ret_l in *.
  apply bind_Ok in Hsave as (s & Hwrite & (e & Hlog & [= <-])%bind_Ok).
  cbn [w_fs w_expe].
  rewrite (write_then_read _ _ _ _ Hwrite), bind_ret_l.
  rewrite loads_dumps, bind_ret_l.
  unfold Experiment.log_info in Hlog |- *.
  destruct (Experiment.log (w_expe w)) as [lines|]; [|done].
  injection Hlog as <-. cbn [Experiment.log]. rewrite bind_ret_l.
  by eexists _, _.
Qed.

(** C9: when [save] completes, [load] by any buffer object that has
    the same path, whatever that object holds itself, completes on the
    world that [save] left and returns the array that was saved: the
    same layout and as many slots, each with the rows and the values it
    had.  Loading leaves the file tree as it is. *)
Theorem save_load_roundtrip `{!FileSystemLaws fs data}
    `{!PickleLaws (layout * list matrix) data} self other w w' :
  save self w = Ok w' →
  path other = path self →
  ∃ w'', load other w' = Ok (w'', (buffer_layout self, buffer self))
         ∧ w_fs w'' = w_fs w'.
Proof.
  intros Hsave Hpath.
  destruct (save_then_load self other w w' Hsave Hpath)
    as (p & lines & _ & _ & Hload).
  eexists. split; [exact Hload|done].
Qed.

End storage_facts.

Lemma prior_buffer_lengths_witness :
  length (PriorBuffer.count Cases.after_first) = length Cases.two_inputs
  ∧ length (PriorBuffer.buffer Cases.after_first)
    = length (PriorBuffer.buffer Cases.fresh_buffer)
  ∧ length <$> PriorBuffer.buffer Cases.after_first
    = length <$> PriorBuffer.buffer Cases.fresh_buffer.
Proof.
  destruct (prior_buffer_lengths Cases.empty_world Cases.two_inputs 1 3
              "prior" None Cases.empty_world Cases.fresh_buffer
              [([0], [Cases.post3], [2])] Cases.after_first)
    as (Hc & Hb & _ & _ & Hrows); [reflexivity..|].
  split; [exact Hc|]. split; [exact Hb|]. apply Hrows.
  repeat constructor. unfold enough_rows. cbn. lia.
Defined.


(** C2 as stated fails: with no file at [priors/prior_1], construction
    from the path [priors] returns the zero buffer. *)
Lemma init_missing_path_no_error :
  isfile (PriorBuffer.w_fs Cases.empty_world) "priors/prior_1" = false
  ∧ PriorBuffer.init Cases.empty_world Cases.two_inputs 1 3 "prior"
      (Some "priors")
    = Ok (Cases.empty_world,
          {| PriorBuffer.dim := 1; PriorBuffer.freq := 3;
             PriorBuffer.path := Some "priors/prior_1";
             PriorBuffer.buffer_layout := PriorBuffer.Ragged;
             PriorBuffer.buffer := [[[0%Qc]; [0%Qc]]; [[0%Qc]]];
             PriorBuffer.count := [0; 0] |}).
Proof. split; reflexivity. Qed.

Lemma init_missing_path_is_fresh_witness :
  PriorBuffer.init Cases.empty_world Cases.two_inputs 1 3 "prior"
    (Some "priors")
  = Ok (Cases.empty_world,
        {| PriorBuffer.dim := 1; PriorBuffer.freq := 3;
           PriorBuffer.path := Some "priors/prior_1";
           PriorBuffer.buffer_layout := PriorBuffer.Ragged;
           PriorBuffer.buffer := [[[0%Qc]; [0%Qc]]; [[0%Qc]]];
           PriorBuffer.count := [0; 0] |}).
Proof.
  apply (proj2 (init_missing_path_is_fresh Cases.empty_world Cases.two_inputs
                  1 3 "prior" (Some "priors"))); [reflexivity|done].
Defined.

(** C5 as stated fails on both counts: loading a stored buffer of one
    slot for two inputs leaves one slot and two counters; and a slot of
    two rows refreshed from an array of one row has one row afterwards. *)
Lemma prior_buffer_lengths_differ :
  (∃ w' pb,
     PriorBuffer.init Cases.stored_world Cases.two_inputs 1 3 "prior"
       (Some "priors") = Ok (w', pb)
     ∧ length (PriorBuffer.buffer pb) = 1%nat
     ∧ length (PriorBuffer.count pb) = 2%nat)
  ∧ (∃ pb,
       PriorBuffer.update_buffer Cases.fresh_buffer [0] [Cases.post1] [2]
       = Ok pb
       ∧ length <$> PriorBuffer.buffer Cases.fresh_buffer !! 0%nat
         = Some 2%nat
       ∧ length <$> PriorBuffer.buffer pb !! 0%nat = Some 1%nat).
Proof.
  split.
  - eexists _, _. split; [reflexivity|]. split; reflexivity.
  - eexists. split; [reflexivity|]. split; reflexivity.
Qed.


Lemma save_load_roundtrip_witness :
  ∃ w'',
    PriorBuffer.load Cases.reader Cases.kept_world
    = Ok (w'', (PriorBuffer.Dense, PriorBuffer.buffer Cases.kept_buffer))
    ∧ PriorBuffer.w_fs w'' = PriorBuffer.w_fs Cases.kept_world.
Proof.
  apply (save_load_roundtrip Cases.kept_buffer Cases.reader Cases.empty_world);
    reflexivity.
Defined.

(** ** Arrays *)

Lemma np_sum_Zsum a : np_sum a = Zsum a.
Proof.
  unfold np_sum, Zsum.
  assert (∀ acc, foldl Z.add acc a = acc + foldr Z.add 0 a) as Hgen.
  { induction a as [|x a IH]; intros acc; cbn; [lia|]. rewrite IH. lia. }
  by rewrite Hgen.
Qed.

Lemma Zsum_cons x l : Zsum (x :: l) = x + Zsum l.
Proof. done. Qed.

Lemma elementwise_Ok {X Y C} (f : X → Y → C) xs ys :
  length xs = length ys → elementwise f xs ys = Ok (zip_with f xs ys).
Proof. intros Hl. unfold elementwise. by rewrite decide_True. Qed.

Lemma Qc_of_Z_zero n : Qc_of_Z n = 0%Qc → n = 0.
Proof. intros Hq. apply (f_equal this) in Hq. by injection Hq. Qed.

Lemma accuracy_all n : n ≠ 0 → accuracy n n = 1%Qc.
Proof.
  intros Hn. unfold accuracy. rewrite bool_decide_true by done.
  apply Qcmult_inv_r. by intros ?%Qc_of_Z_zero.
Qed.

Lemma accuracy_none n : accuracy n 0 = 0%Qc.
Proof. done. Qed.

(** What one call adds to the count of right answers. *)
Lemma hits_sum pred label mask :
  length pred = length label → length label = length mask →
  np_sum (zip_with (λ (b : bool) m, (if b then 1 else 0) * m)
            (zip_with (λ x y, bool_decide (x = y)) pred label) mask)
  = weighted_matches (pred, label, mask).
Proof.
  rewrite np_sum_Zsum. unfold weighted_matches, positions. cbn [fst snd].
  revert label mask.
  induction pred as [|p pred IH]; intros [|l label] [|m mask]; try done.
  intros [= Hpl] [= Hlm].
  cbn [zip_with zip fmap list_fmap fst snd].
  rewrite !Zsum_cons, (IH _ _ Hpl Hlm). cbn [fst snd].
  case_bool_decide; case_decide; try done; lia.
Qed.

Lemma weighted_matches_binary c :
  binary_mask c → weighted_matches c = matched_count c.
Proof.
  destruct c as [[pred label] mask].
  unfold binary_mask, weighted_matches, matched_count, positions.
  cbn [fst snd]. intros Hmask. revert pred label.
  induction Hmask as [|m mask Hm _ IH]; intros [|p pred] [|l label]; try done.
  cbn [zip zip_with fmap list_fmap fst snd].
  rewrite Zsum_cons, filter_cons. cbn [fst snd]. rewrite (IH pred label).
  repeat case_decide; cbn [length]; lia.
Qed.

Lemma weighted_matches_all c :
  same_shape c → all_matched c → weighted_matches c = mask_sum c.
Proof.
  destruct c as [[pred label] mask].
  unfold same_shape, all_matched, weighted_matches, mask_sum, positions.
  cbn [fst snd]. intros [Hpl Hlm]. revert label mask Hpl Hlm.
  induction pred as [|p pred IH]; intros [|l label] [|m mask]; try done.
  intros [= Hpl] [= Hlm] [Hp Hrest]%Forall_cons. cbn [fst snd] in Hp.
  cbn [zip zip_with fmap list_fmap fst snd].
  rewrite !Zsum_cons, (IH _ _ Hpl Hlm Hrest).
  case_decide; [done|]. destruct (decide (m = 0)); [lia|]. by destruct Hp.
Qed.

Lemma np_select_masked a mask :
  length a = length mask → np_select a mask = Ok (masked_in a mask).
Proof.
  intros Hl. unfold np_select, masked_in. rewrite elementwise_Ok by done.
  rewrite bind_ret_l. f_equal. revert mask Hl.
  induction a as [|x a IH]; intros [|m mask]; try done.
  intros [= Hl]. cbn [zip_with zip]. rewrite !filter_cons. cbn [fst snd].
  specialize (IH _ Hl). cbn [zip] in IH.
  case_bool_decide; repeat case_decide; try done; cbn; by f_equal.
Qed.

(** ** accuracy_reporter *)

Section accuracy_facts.
Import AccuracyReporter.

Lemma accuracy_update_spec self c :
  same_shape c →
  ∃ self', update self c.1.1 c.1.2 c.2 = Ok self'
    ∧ right_count self' = right_count self + weighted_matches c
    ∧ instance_count self' = instance_count self + mask_sum c.
Proof.
  destruct c as [[pred label] mask]. intros [Hpl Hlm]. cbn [fst snd] in *.
  unfold update, np_eq, np_mul_bool.
  rewrite elementwise_Ok, bind_ret_l by done.
  rewrite elementwise_Ok, bind_ret_l by (by rewrite length_zip_with; lia).
  eexists. split; [done|]. cbn [right_count instance_count].
  by rewrite hits_sum, np_sum_Zsum.
Qed.

Lemma accuracy_updates_spec calls :
  Forall same_shape calls → ∀ self,
  ∃ self', updates self calls = Ok self'
    ∧ right_count self' = right_count self + Zsum (weighted_matches <$> calls)
    ∧ instance_count self' = instance_count self + Zsum (mask_sum <$> calls).
Proof.
  induction 1 as [|c calls Hc _ IH]; intros self.
  - exists self. cbn. split; [done|]. lia.
  - destruct (accuracy_update_spec self c Hc) as (s1 & Hrun & Hr & Hi).
    destruct (IH s1) as (s2 & Hrun' & Hr' & Hi').
    exists s2. unfold updates. cbn [for_each]. rewrite Hrun, bind_ret_l.
    split; [done|]. rewrite !fmap_cons, !Zsum_cons. lia.
Qed.

(** C7: after any [update] calls on arrays of matching sizes with masks
    of zeros and ones, [report] returns as [acc] the number of positions
    where prediction and label agree under a nonzero mask, divided by
    the sum of the masks, over all the calls; [acc] is [1] when every
    masked position agrees and some position is masked, and [0], with
    no exception, when the masks sum to zero; and [f1], [prec] and
    [rec] are [0]. *)
Theorem acc_report_cumulative calls :
  Forall same_shape calls →
  Forall binary_mask calls →
  let right := Zsum (matched_count <$> calls) in
  let total := Zsum (mask_sum <$> calls) in
  ∃ self, updates init calls = Ok self
    ∧ (report self).2
      = (if bool_decide (total ≠ 0)
         then (Qc_of_Z right / Qc_of_Z total)%Qc else 0%Qc)
    ∧ (report self).1 !! "acc" = Some (report self).2
    ∧ (report self).1 !! "f1" = Some 0%Qc
    ∧ (report self).1 !! "prec" = Some 0%Qc
    ∧ (report self).1 !! "rec" = Some 0%Qc
    ∧ (Forall all_matched calls → total ≠ 0 → (report self).2 = 1%Qc)
    ∧ (total = 0 → (report self).2 = 0%Qc).
Proof.
  intros Hshape Hmask right total.
  destruct (accuracy_updates_spec calls Hshape init) as (self & Hrun & Hr & Hi).
  cbn [init right_count instance_count] in Hr, Hi.
  assert (weighted_matches <$> calls = matched_count <$> calls) as Hw.
  { apply Forall_fmap_ext_1. eapply Forall_impl; [exact Hmask|].
    intros c. apply weighted_matches_binary. }
  rewrite Hw in Hr. fold right in Hr. fold total in Hi.
  exists self. split; [done|].
  unfold report. cbn [fst snd]. rewrite Hr, Hi, !Z.add_0_l.
  split; [done|]. split; [done|]. split; [done|]. split; [done|].
  split; [done|]. split.
  - intros Hall Htotal.
    assert (right = total) as ->; [|by apply accuracy_all].
    unfold right, total. rewrite <-Hw. f_equal.
    apply Forall_fmap_ext_1, Forall_forall. intros c Hc.
    apply weighted_matches_all.
    + by eapply Forall_forall in Hshape.
    + by eapply Forall_forall in Hall.
  - intros ->. done.
Qed.

End accuracy_facts.

Lemma acc_report_cumulative_witness :
  ∃ self,
    AccuracyReporter.updates AccuracyReporter.init
      [([1; 2; 3], [1; 5; 3], [1; 1; 0]); ([4], [4], [1])] = Ok self
    ∧ (AccuracyReporter.report self).2 = (Qc_of_Z 2 / Qc_of_Z 3)%Qc
    ∧ (AccuracyReporter.report self).1 !! "f1" = Some 0%Qc.
Proof.
  destruct (acc_report_cumulative
              [([1; 2; 3], [1; 5; 3], [1; 1; 0]); ([4], [4], [1])])
    as (self & Hrun & Hacc & _ & Hf1 & _).
  - repeat (apply Forall_cons_2 || apply Forall_nil_2); by split.
  - repeat (apply Forall_cons_2 || apply Forall_nil_2); unfold binary_mask;
      cbn [snd];
      repeat (apply Forall_cons_2 || apply Forall_nil_2);
      first [by left | by right].
  - exists self. split; [exact Hrun|]. split; [exact Hacc|exact Hf1].
Defined.

(** ** f1_reporter *)

Section f1_facts.
Import F1Reporter.

Lemma weighted_matches_swap pred label mask :
  weighted_matches (label, pred, mask) = weighted_matches (pred, label, mask).
Proof.
  unfold weighted_matches, positions. cbn [fst snd]. f_equal.
  revert label mask.
  induction pred as [|p pred IH]; intros [|l label] [|m mask]; try done.
  cbn [zip zip_with fmap list_fmap fst snd]. cbn [zip] in IH. rewrite IH.
  f_equal. repeat case_decide; congruence.
Qed.

Lemma elementwise_Ok_inv {X Y C} (f : X → Y → C) xs ys zs :
  elementwise f xs ys = Ok zs → length xs = length ys ∧ zs = zip_with f xs ys.
Proof.
  unfold elementwise. case_decide; [|done]. by intros [= <-].
Qed.

(** [update] completes exactly on arrays of matching sizes. *)
Lemma f1_update_Ok self pred label mask self' :
  update self pred label mask = Ok self' →
  same_shape (pred, label, mask)
  ∧ self' = {| inv_tag_vocab := inv_tag_vocab self;
               instance_count := instance_count self
                                 + mask_sum (pred, label, mask);
               right_count := right_count self
                              + weighted_matches (pred, label, mask);
               f1 := f1 self; prec := prec self; rec := rec self;
               pred := Some (masked_in pred mask);
               label := Some (masked_in label mask) |}.
Proof.
  unfold update, np_eq, np_mul_bool.
  intros (same & [Hlp ->]%elementwise_Ok_inv
          & (hits & [Hsm ->]%elementwise_Ok_inv & Hrest)%bind_Ok)%bind_Ok.
  rewrite length_zip_with in Hsm.
  assert (length pred = length label ∧ length label = length mask)
    as [Hpl Hlm] by lia.
  rewrite !np_select_masked, !bind_ret_l in Hrest by lia.
  injection Hrest as <-. split; [done|].
  rewrite hits_sum, weighted_matches_swap, np_sum_Zsum by lia. done.
Qed.

Lemma f1_update_spec self pred label mask :
  same_shape (pred, label, mask) → succeeds (update self pred label mask).
Proof.
  intros [Hpl Hlm]. cbn [fst snd] in *. unfold update, np_eq, np_mul_bool.
  rewrite elementwise_Ok, bind_ret_l by done.
  rewrite elementwise_Ok, bind_ret_l by (by rewrite length_zip_with; lia).
  rewrite !np_select_masked, !bind_ret_l by lia. by eexists.
Qed.

(** C4: the code does not get as far as the scores.  On a new
    reporter, [update([1, 2], [1, 3], [1, 1])] completes and keeps the
    masked-in predictions and labels of that call; [report()] then
    raises [SyntaxError], where the specification has it return the micro
    scores of these arrays and append them to the histories. *)
Theorem f1_report_syntax_error :
  ∃ r, update (init ∅) [1; 2] [1; 3] [1; 1] = Ok r
       ∧ pred r = Some [1; 2] ∧ label r = Some [1; 3]
       ∧ report r = Raise SyntaxError.
Proof. eexists. split; [reflexivity|]. by repeat split. Qed.

End f1_facts.

(** ** experiment *)

Section experiment_facts.
Import Experiment.
Context {value fs data : Type} `{PyValue value} `{FileSystem fs data}
        `{!FileSystemLaws fs data}.
Variable get_parser : parser value.

Lemma makedirs_attr_keeps self attr s s' q :
  makedirs_attr self attr s = Ok s' → isdir s q = true → isdir s' q = true.
Proof.
  unfold makedirs_attr. intros (v & _ & Hmk)%bind_Ok.
  destruct (py_fspath v); [|done]. by eapply makedirs_keeps.
Qed.

Lemma make_misc_dir_keeps self s s' q :
  _make_misc_dir self s = Ok s' → isdir s q = true → isdir s' q = true.
Proof.
  unfold _make_misc_dir. intros (s1 & H1 & H2)%bind_Ok Hq.
  eauto using makedirs_attr_keeps.
Qed.

(** The directory does not depend on the name of the log file. *)
Lemma experiment_dir_logfile config prefix l1 l2 :
  experiment_dir get_parser (make get_parser config prefix l1)
  = experiment_dir get_parser (make get_parser config prefix l2).
Proof. reflexivity. Qed.

(** C8: outside debug mode, with [dir] the directory derived from the
    configuration and the prefix, construction raises at once when
    [dir] exists; and when a construction completes, [dir] did not
    exist before, exists afterwards, and a second construction from the
    same configuration and prefix raises. *)
Theorem experiment_collision s config prefix logfile debug dir :
  getattr config "debug" = Ok debug →
  py_truth debug = false →
  experiment_dir get_parser (make get_parser config prefix logfile) = Ok dir →
  (isdir s dir = true →
   init get_parser s config prefix logfile = Raise ValueError)
  ∧ (∀ s1 e1,
       init get_parser s config prefix logfile = Ok (s1, e1) →
       isdir s dir = false
       ∧ isdir s1 dir = true
       ∧ ∀ logfile', init get_parser s1 config prefix logfile'
                     = Raise ValueError).
Proof.
  intros Hdebug Htruth Hdir.
  assert (∀ s0 l, isdir s0 dir = true →
            init get_parser s0 config prefix l = Raise ValueError) as Hexists.
  { intros s0 l Hd. unfold init. rewrite Hdebug, bind_ret_l, Htruth.
    cbn [negb]. rewrite (experiment_dir_logfile _ _ l logfile), Hdir.
    by rewrite bind_ret_l, Hd. }
  split; [by apply Hexists|].
  intros s1 e1 Hinit. unfold init in Hinit.
  rewrite Hdebug, bind_ret_l, Htruth in Hinit. cbn [negb] in Hinit.
  rewrite Hdir, bind_ret_l in Hinit.
  destruct (isdir s dir) eqn:Hd; [done|].
  unfold _makedir in Hinit. rewrite Hdir, bind_ret_l in Hinit.
  apply bind_Ok in Hinit as (s' & Hmk & (s2 & Hmisc & [= <- _])%bind_Ok).
  split; [done|].
  assert (isdir s2 dir = true) as Hd2.
  { eapply make_misc_dir_keeps; [exact Hmisc|]. by eapply makedirs_isdir. }
  split; [done|]. intros l. by apply Hexists.
Qed.

End experiment_facts.

Lemma experiment_collision_witness :
  ∃ s1 e1,
    Experiment.init Cases.small_parser Cases.empty_tree Cases.small_config
      "runs" "log" = Ok (s1, e1)
    ∧ isdir Cases.empty_tree "runs/seed7" = false
    ∧ isdir s1 "runs/seed7" = true
    ∧ Experiment.init Cases.small_parser s1 Cases.small_config "runs" "log"
      = Raise ValueError.
Proof.
  destruct (experiment_collision Cases.small_parser Cases.empty_tree
              Cases.small_config "runs" "log" (PBool false) "runs/seed7")
    as [_ Hsecond]; [reflexivity..|].
  eexists _, _. split; [reflexivity|].
  edestruct Hsecond as (Hbefore & Hafter & Hagain); [reflexivity|].
  split; [exact Hbefore|]. split; [exact Hafter|exact (Hagain "log")].
Defined.

(** * Further properties *)

(** ** tracker *)

Section tracker_more.
Import Tracker TrackerText.

Lemma string_app_assoc (a b c : string) : (a +:+ b) +:+ c = a +:+ b +:+ c.
Proof.
  induction a as [|x a IH]; [done|]. exact (f_equal (String x) IH).
Qed.

Lemma string_app_empty_r (a : string) : a +:+ "" = a.
Proof.
  induction a as [|x a IH]; [done|]. exact (f_equal (String x) IH).
Qed.

Lemma add_value_tracks c t item t' :
  add_value c t item = Ok t' →
  names t' = names t ∧ counter t' = counter t
  ∧ ∀ k, is_Some (values t' !! k) ↔ is_Some (values t !! k).
Proof.
  unfold add_value. destruct (values t !! item.1) as [old|] eqn:Hold; [|done].
  intros [= <-]. cbn [names counter values]. split; [done|]. split; [done|].
  intros k. destruct (decide (item.1 = k)) as [<-|Hne].
  - rewrite lookup_insert_eq, Hold. by split; eauto.
  - by rewrite lookup_insert_ne.
Qed.

Lemma update_tracks t nv c t' :
  tracks t → update t nv c = Ok t' → tracks t' ∧ names t' = names t.
Proof.
  intros Ht Hrun. unfold update in Hrun.
  refine (for_each_invariant (λ s, tracks s ∧ names s = names t)
            (add_value c) nv _ (mk_tracker _ _ _ _) _ _ Hrun).
  - intros s x s' [Hs Hn] (Hn' & _ & Hdom)%add_value_tracks.
    split; [|congruence]. intros k. by rewrite Hdom, Hn', (Hs k).
  - done.
Qed.

Lemma updates_tracks t calls t' :
  tracks t → updates t calls = Ok t' → tracks t' ∧ names t' = names t.
Proof.
  intros Ht Hrun.
  refine (for_each_invariant (λ s, tracks s ∧ names s = names t)
            _ calls _ _ _ (conj Ht eq_refl) Hrun).
  intros s call s' [Hs Hn] Hup.
  destruct (update_tracks _ _ _ _ Hs Hup) as [Hs' Hn'].
  split; [done|congruence].
Qed.

Lemma update_create_time t nv c t' :
  update t nv c = Ok t' → create_time t' = create_time t.
Proof.
  unfold update. intros Hloop.
  refine (for_each_invariant (λ s, create_time s = create_time t)
            (add_value c) nv _ (mk_tracker _ _ _ _) t' eq_refl Hloop).
  intros s x s' Hs. unfold add_value.
  destruct (values s !! x.1); [|done]. by intros [= <-].
Qed.

Lemma updates_create_time t calls t' :
  updates t calls = Ok t' → create_time t' = create_time t.
Proof.
  intros Hrun.
  refine (for_each_invariant (λ s, create_time s = create_time t)
            _ calls _ t t' eq_refl Hrun).
  intros s call s' Hs Hup. by rewrite (update_create_time _ _ _ _ Hup).
Qed.

(** A tracker as a run has it: built by [__init__], then updated. *)
Lemma reachable_tracks names now t0 calls t :
  init names now = Ok t0 → updates t0 calls = Ok t →
  tracks t ∧ Tracker.names t = names.
Proof.
  intros (Hn & _ & Ht0 & _)%init_spec Hrun.
  destruct (updates_tracks _ _ _ Ht0 Hrun) as [Ht Hn'].
  split; [done|congruence].
Qed.

Lemma add_values_known c nv : ∀ t,
  tracks t → Forall (λ k, k ∈ names t) nv.*1 →
  succeeds (for_each (add_value c) nv t).
Proof.
  induction nv as [|[k v] nv IH]; intros t Ht Hall; [by eexists|].
  rewrite fmap_cons in Hall. apply Forall_cons in Hall as [Hk Hall].
  cbn [fst] in Hk. apply (Ht k) in Hk as [old Hold].
  cbn [for_each]. rewrite (add_value_known c t k v old Hold), bind_ret_l.
  apply IH; [|done].
  intros k'. cbn [values names]. rewrite <-(Ht k').
  destruct (decide (k = k')) as [<-|Hne].
  - rewrite lookup_insert_eq, Hold. by split; eauto.
  - by rewrite lookup_insert_ne.
Qed.

Lemma add_values_unknown c nv : ∀ t,
  tracks t → Exists (λ k, k ∉ names t) nv.*1 →
  for_each (add_value c) nv t = Raise KeyError.
Proof.
  induction nv as [|[k v] nv IH]; intros t Ht Hex.
  - by apply Exists_nil in Hex.
  - rewrite fmap_cons in Hex. cbn [for_each fst].
    destruct (values t !! k) as [old|] eqn:Hold.
    + rewrite (add_value_known c t k v old Hold), bind_ret_l.
      apply Exists_cons in Hex as [Hk|Hex].
      { cbn [fst] in Hk. destruct Hk. apply (Ht k). eauto. }
      apply IH; [|done].
      intros k'. cbn [values names]. rewrite <-(Ht k').
      destruct (decide (k = k')) as [<-|Hne].
      * rewrite lookup_insert_eq, Hold. by split; eauto.
      * by rewrite lookup_insert_ne.
    + unfold add_value. cbn [fst]. by rewrite Hold.
Qed.

(** X1: on a tracker built by [__init__] and updated since, [update]
    completes when every name of [named_values] is a name of the
    tracker, and raises [KeyError] when one is not. *)
Theorem tracker_update_key_error names now t0 calls t nv c :
  init names now = Ok t0 →
  updates t0 calls = Ok t →
  (Forall (λ k, k ∈ names) nv.*1 → succeeds (update t nv c))
  ∧ (Exists (λ k, k ∉ names) nv.*1 → update t nv c = Raise KeyError).
Proof.
  intros Hinit Hrun.
  destruct (reachable_tracks _ _ _ _ _ Hinit Hrun) as [Ht Hn].
  assert (tracks (mk_tracker (Tracker.names t) (values t) (counter t + c)%Qc
                    (create_time t))) as Ht1 by exact Ht.
  unfold update. split; intros Hk.
  - apply add_values_known; [done|]. cbn [Tracker.names]. by rewrite Hn.
  - apply add_values_unknown; [done|]. cbn [Tracker.names]. by rewrite Hn.
Qed.

Lemma tracker_update_key_error_witness :
  succeeds (update (reset (mk_tracker ["log_loss"] ∅ 0%Qc 0%Qc) 0%Qc)
              [("log_loss", 1%Qc)] 1%Qc)
  ∧ update (reset (mk_tracker ["log_loss"] ∅ 0%Qc 0%Qc) 0%Qc)
      [("log_loss", 1%Qc); ("kl", 1%Qc)] 1%Qc = Raise KeyError.
Proof.
  split.
  - apply (tracker_update_key_error ["log_loss"] 0%Qc
             (reset (mk_tracker ["log_loss"] ∅ 0%Qc 0%Qc) 0%Qc) [] (reset (mk_tracker ["log_loss"] ∅ 0%Qc 0%Qc) 0%Qc)
             [("log_loss", 1%Qc)] 1%Qc); [reflexivity..|].
    repeat constructor.
  - apply (tracker_update_key_error ["log_loss"] 0%Qc
             (reset (mk_tracker ["log_loss"] ∅ 0%Qc 0%Qc) 0%Qc) [] (reset (mk_tracker ["log_loss"] ∅ 0%Qc 0%Qc) 0%Qc)
             [("log_loss", 1%Qc); ("kl", 1%Qc)] 1%Qc); [reflexivity..|].
    apply Exists_cons_tl, Exists_cons_hd.
    by intros [=]%list_elem_of_singleton.
Defined.

(** X2: [stats] holds, for exactly the names of the tracker, the value
    that indexing by the name gives. *)
Theorem tracker_stats_getitem names now t0 calls t n :
  init names now = Ok t0 →
  updates t0 calls = Ok t →
  stats t !! n = if decide (n ∈ names) then Some (getitem t n) else None.
Proof.
  intros Hinit Hrun.
  destruct (reachable_tracks _ _ _ _ _ Hinit Hrun) as [Ht Hn].
  unfold stats, getitem. rewrite lookup_fmap.
  destruct (decide (n ∈ names)) as [Hin|Hnin].
  - rewrite <-Hn in Hin. apply (Ht n) in Hin as [v Hv]. by rewrite Hv.
  - rewrite <-Hn in Hnin.
    destruct (values t !! n) as [v|] eqn:Hv; [|done].
    destruct Hnin. apply (Ht n). eauto.
Qed.

Lemma tracker_stats_getitem_witness :
  ∃ t, updates (reset (mk_tracker ["log_loss"] ∅ 0%Qc 0%Qc) 0%Qc)
         [([("log_loss", 1%Qc)], 1%Qc)] = Ok t
       ∧ stats t !! "log_loss" = Some (getitem t "log_loss")
       ∧ stats t !! "kl" = None.
Proof.
  eexists. split; [reflexivity|]. split.
  - eapply (tracker_stats_getitem ["log_loss"] 0%Qc
              (reset (mk_tracker ["log_loss"] ∅ 0%Qc 0%Qc) 0%Qc)
              [([("log_loss", 1%Qc)], 1%Qc)]); reflexivity.
  - eapply (tracker_stats_getitem ["log_loss"] 0%Qc
              (reset (mk_tracker ["log_loss"] ∅ 0%Qc 0%Qc) 0%Qc)
              [([("log_loss", 1%Qc)], 1%Qc)]); reflexivity.
Defined.

(** X3: [reset] brings a tracker, whatever it has accumulated, to the
    state that [__init__] builds for its names at the time of the
    reset. *)
Theorem tracker_reset_fresh names now0 t0 calls t now :
  init names now0 = Ok t0 →
  updates t0 calls = Ok t →
  init names now = Ok (reset t now).
Proof.
  intros Hinit Hrun.
  destruct (reachable_tracks _ _ _ _ _ Hinit Hrun) as [_ Hn].
  unfold init, py_assert in *.
  case_bool_decide; [|done]. rewrite bind_ret_l. unfold reset.
  cbn [Tracker.names]. by rewrite Hn.
Qed.

Lemma tracker_reset_fresh_witness :
  ∃ t, updates (reset (mk_tracker ["log_loss"] ∅ 0%Qc 0%Qc) 0%Qc)
         [([("log_loss", 1%Qc)], 1%Qc)] = Ok t
       ∧ init ["log_loss"] 1%Qc = Ok (reset t 1%Qc).
Proof.
  eexists. split; [reflexivity|].
  eapply (tracker_reset_fresh ["log_loss"] 0%Qc
            (reset (mk_tracker ["log_loss"] ∅ 0%Qc 0%Qc) 0%Qc)
            [([("log_loss", 1%Qc)], 1%Qc)]); reflexivity.
Defined.

Section summary.
Context `{FloatFormat}.

Lemma mean_of_tracked t n :
  tracks t → n ∈ names t → mean_of t n = Ok (getitem t n).
Proof.
  intros Ht [v Hv]%(Ht n). unfold mean_of, getitem. rewrite Hv.
  by case_bool_decide.
Qed.

Lemma add_name_tracked t out n :
  tracks t → n ∈ names t →
  add_name t out n
  = Ok (out +:+ n +:+ ": " +:+ format_float 3 (getitem t n) +:+ ", ").
Proof.
  intros Ht Hn. unfold add_name. by rewrite (mean_of_tracked t n Ht Hn).
Qed.

Lemma summarize_loop t ns : ∀ out,
  tracks t → Forall (λ n, n ∈ names t) ns →
  for_each (add_name t) ns out = Ok (out +:+ summary_body t ns).
Proof.
  induction ns as [|n ns IH]; intros out Ht Hall.
  - cbn. by rewrite string_app_empty_r.
  - apply Forall_cons in Hall as [Hn Hall]. cbn [for_each summary_body foldr].
    rewrite (add_name_tracked t out n Ht Hn), bind_ret_l.
    rewrite (IH _ Ht Hall). fold (summary_body t ns).
    by rewrite !string_app_assoc.
Qed.

(** X4: [summarize] does not raise on a tracker built by [__init__] and
    updated since.  The line it returns is the text passed in, followed
    by a comma when it is not empty, then every name in the order of
    construction with its running mean (as indexing gives it) printed
    with three decimals, then the time elapsed since creation. *)
Theorem tracker_summarize_line names now0 t0 calls t output now :
  init names now0 = Ok t0 →
  updates t0 calls = Ok t →
  summarize t output now
  = Ok ((if bool_decide (output ≠ "") then output +:+ ", " else "")
        +:+ summary_body t names
        +:+ "elapsed time: " +:+ format_float 1 (now - now0)%Qc +:+ "(s)").
Proof.
  intros Hinit Hrun.
  destruct (reachable_tracks _ _ _ _ _ Hinit Hrun) as [Ht Hn].
  assert (create_time t = now0) as Hct.
  { rewrite (updates_create_time _ _ _ Hrun).
    unfold init, py_assert in Hinit. case_bool_decide; [|done].
    by injection Hinit as <-. }
  unfold summarize. rewrite summarize_loop; [|done|].
  - rewrite bind_ret_l, Hct, Hn. f_equal.
    case_bool_decide as Ho; [by rewrite !string_app_assoc|].
    subst output. by rewrite ?string_app_assoc.
  - by apply Forall_forall.
Qed.

End summary.
End tracker_more.

Lemma tracker_summarize_line_witness :
  ∃ t, Tracker.updates
         (Tracker.reset (Tracker.mk_tracker ["log_loss"] ∅ 0%Qc 0%Qc) 0%Qc)
         [([("log_loss", 1%Qc)], 1%Qc)] = Ok t
       ∧ TrackerText.summarize t "acc: 1" 1%Qc
         = Ok ("acc: 1, " +:+ summary_body t ["log_loss"]
               +:+ "elapsed time: " +:+ format_float 1 (1 - 0)%Qc +:+ "(s)").
Proof.
  eexists. split; [reflexivity|].
  eapply (tracker_summarize_line ["log_loss"] 0%Qc
            (Tracker.reset (Tracker.mk_tracker ["log_loss"] ∅ 0%Qc 0%Qc) 0%Qc)
            [([("log_loss", 1%Qc)], 1%Qc)]); reflexivity.
Defined.

(** ** prior_buffer *)

Section buffer_more.
Import PriorBuffer PriorBufferRead.

Lemma list_comp_Forall2 {X Y} (f : X → result Y) (R : X → Y → Prop) xs :
  Forall (λ x, ∃ y, f x = Ok y ∧ R x y) xs →
  ∃ ys, list_comp f xs = Ok ys ∧ Forall2 R xs ys.
Proof.
  induction 1 as [|x xs (y & Hy & HR) _ (ys & Hys & HRs)].
  - by exists [].
  - exists (y :: ys). cbn [list_comp]. rewrite Hy, bind_ret_l, Hys.
    split; [done|]. by constructor.
Qed.

Lemma list_comp_Raise {X Y} (f : X → result Y) e xs :
  Forall (λ x, succeeds (f x) ∨ f x = Raise e) xs →
  Exists (λ x, f x = Raise e) xs →
  list_comp f xs = Raise e.
Proof.
  induction 1 as [|x xs Hx _ IH]; intros Hex.
  - by apply Exists_nil in Hex.
  - cbn [list_comp]. destruct Hx as [[y Hy]|Hx]; [|by rewrite Hx].
    rewrite Hy, bind_ret_l. apply Exists_cons in Hex as [Hex|Hex].
    + congruence.
    + by rewrite (IH Hex).
Qed.

Lemma np_take_in_range {A} (a : list A) i :
  - Z.of_nat (length a) ≤ i < Z.of_nat (length a) →
  ∃ x, np_take a i = Ok x ∧ a !! slot_of (length a) i = Some x.
Proof.
  intros Hi. unfold np_take, py_index, slot_of. rewrite decide_True by done.
  destruct (a !! Z.to_nat (i `mod` Z.of_nat (length a))) as [x|] eqn:Hx.
  - by exists x.
  - apply lookup_ge_None in Hx.
    pose proof (Z.mod_pos_bound i (Z.of_nat (length a))). lia.
Qed.

Lemma np_take_out_of_range {A} (a : list A) i :
  ¬ (- Z.of_nat (length a) ≤ i < Z.of_nat (length a)) →
  np_take a i = Raise IndexError.
Proof. intros Hi. unfold np_take. by rewrite decide_False. Qed.

Lemma np_take_outcome {A} (a : list A) i :
  succeeds (np_take a i) ∨ np_take a i = Raise IndexError.
Proof.
  destruct (decide (- Z.of_nat (length a) ≤ i < Z.of_nat (length a)))
    as [Hi|Hi].
  - left. destruct (np_take_in_range a i Hi) as (x & Hx & _). by exists x.
  - right. by apply np_take_out_of_range.
Qed.

Lemma foldl_max_spec xs : ∀ x,
  let m := foldl Nat.max x xs in
  Forall (λ y, (y ≤ m)%nat) (x :: xs) ∧ m ∈ x :: xs.
Proof.
  induction xs as [|y xs IH]; intros x; cbn [foldl].
  - split; [by constructor|by left].
  - destruct (IH (x `max` y)%nat) as [Hall Hin]. cbv zeta in Hall, Hin.
    apply Forall_cons in Hall as [Hxy Hall]. split.
    + constructor; [lia|]. constructor; [lia|done].
    + apply elem_of_cons in Hin as [Hin|Hin]; [|by do 2 right].
      rewrite Hin. destruct (Nat.max_spec x y) as [[_ ->]|[_ ->]];
        [right; left|left]; done.
Qed.

Lemma np_max_spec xs :
  xs ≠ [] →
  ∃ m, np_max xs = Ok m ∧ Forall (λ y, (y ≤ m)%nat) xs ∧ m ∈ xs.
Proof.
  destruct xs as [|x xs]; [done|]. intros _. eexists. split; [done|].
  apply foldl_max_spec.
Qed.

Lemma fit_row_width dim row :
  Z.of_nat (length row) = dim → fit_row dim row = Ok row.
Proof. intros Hrow. unfold fit_row. by rewrite decide_True. Qed.

Lemma fit_rows dim b :
  has_width dim b → list_comp (fit_row dim) b = Ok b.
Proof.
  induction 1 as [|row b Hrow _ IH]; [done|].
  cbn [list_comp]. by rewrite (fit_row_width _ _ Hrow), bind_ret_l, IH.
Qed.

Lemma assign_rows_padded dim max_len b :
  has_width dim b →
  assign_rows dim (replicate max_len (zero_row dim)) b
  = Ok (b ++ replicate (max_len - length b) (zero_row dim)).
Proof.
  intros Hb. unfold assign_rows.
  by rewrite (fit_rows _ _ Hb), bind_ret_l, drop_replicate.
Qed.

Lemma getitem_in_range self ixs :
  0 ≤ dim self →
  well_shaped self →
  ixs ≠ [] →
  Forall (λ i, - len self ≤ i < len self) ixs →
  ∃ out max_len,
    getitem self ixs = Ok out
    ∧ Forall2 (λ i m, ∃ slot,
                 buffer self !! slot_of (length (buffer self)) i = Some slot
                 ∧ (length slot ≤ max_len)%nat
                 ∧ m = slot ++ replicate (max_len - length slot)
                                 (zero_row (dim self))) ixs out
    ∧ Exists (λ i, ∃ slot,
                buffer self !! slot_of (length (buffer self)) i = Some slot
                ∧ length slot = max_len) ixs.
Proof.
  intros Hdim Hshape Hne Hrange. unfold getitem.
  destruct (list_comp_Forall2 (np_take (buffer self))
              (λ i slot, buffer self !! slot_of (length (buffer self)) i
                         = Some slot) ixs)
    as (slots & Hslots & Htaken).
  { eapply Forall_impl; [exact Hrange|]. intros i Hi. cbn beta in Hi.
    by apply np_take_in_range. }
  rewrite Hslots, bind_ret_l.
  assert (length <$> slots ≠ []) as Hlens.
  { apply Forall2_length in Htaken. destruct ixs, slots; done. }
  destruct (np_max_spec _ Hlens) as (max_len & Hmax & Hle & Hin).
  rewrite Hmax, bind_ret_l, (np_zeros_nonneg _ _ Hdim), bind_ret_l.
  fold (zero_row (dim self)).
  assert (Forall (has_width (dim self)) slots) as Hwide.
  { apply Forall_forall. intros slot [k Hk]%list_elem_of_lookup.
    destruct (Forall2_lookup_r _ _ _ _ _ Htaken Hk) as (i & _ & Hi).
    unfold well_shaped in Hshape. rewrite Forall_forall in Hshape.
    apply Hshape. by eapply list_elem_of_lookup_2. }
  destruct (list_comp_Forall2
              (assign_rows (dim self) (replicate max_len (zero_row (dim self))))
              (λ slot m, m = slot ++ replicate (max_len - length slot)
                                       (zero_row (dim self))) slots)
    as (out & Hout & Hpadded).
  { eapply Forall_impl; [exact Hwide|]. intros slot Hslot. cbn beta in Hslot.
    exists (slot ++ replicate (max_len - length slot) (zero_row (dim self))).
    split; [|done]. by apply assign_rows_padded. }
  exists out, max_len. split; [done|]. split.
  - apply Forall2_same_length_lookup. split.
    { apply Forall2_length in Htaken, Hpadded. congruence. }
    intros k i m Hi Hm.
    destruct (Forall2_lookup_l _ _ _ _ _ Htaken Hi) as (slot & Hslot & Hread).
    destruct (Forall2_lookup_l _ _ _ _ _ Hpadded Hslot) as (m' & Hm' & ->).
    exists slot. split; [done|]. split; [|congruence].
    eapply (Forall_lookup_1 _ _ k) in Hle; [exact Hle|].
    by rewrite list_lookup_fmap, Hslot.
  - apply list_elem_of_fmap in Hin as (slot & Hlen & [k Hk]%list_elem_of_lookup).
    destruct (Forall2_lookup_r _ _ _ _ _ Htaken Hk) as (i & Hi & Hread).
    apply Exists_exists. exists i. split; [by eapply list_elem_of_lookup_2|].
    by exists slot.
Qed.

(** X5: reading a non-empty list of indices in range from a buffer whose
    rows have [dim] entries returns one array per index, in order: the
    slot the index addresses followed by rows of zeros up to the
    greatest slot length among those read, which is the common number
    of rows. *)
Theorem buffer_getitem_padded self ixs :
  0 ≤ dim self →
  well_shaped self →
  ixs ≠ [] →
  Forall (λ i, - len self ≤ i < len self) ixs →
  ∃ out max_len,
    getitem self ixs = Ok out
    ∧ Forall2 (λ i m, ∃ slot,
                 buffer self !! slot_of (length (buffer self)) i = Some slot
                 ∧ (length slot ≤ max_len)%nat
                 ∧ m = slot ++ replicate (max_len - length slot)
                                 (zero_row (dim self))) ixs out
    ∧ Exists (λ i, ∃ slot,
                buffer self !! slot_of (length (buffer self)) i = Some slot
                ∧ length slot = max_len) ixs.
Proof. apply getitem_in_range. Qed.

(** X6: reading raises [ValueError] for an empty list of indices, and
    [IndexError] when an index lies outside [-len(buffer), len(buffer))]. *)
Theorem buffer_getitem_errors self ixs :
  (ixs = [] → getitem self ixs = Raise ValueError)
  ∧ (Exists (λ i, ¬ (- len self ≤ i < len self)) ixs →
     getitem self ixs = Raise IndexError).
Proof.
  split.
  - by intros ->.
  - intros Hex. unfold getitem. rewrite (list_comp_Raise _ IndexError); [done| |].
    + apply Forall_forall. intros i _. apply np_take_outcome.
    + eapply Exists_impl; [exact Hex|]. intros i Hi. cbn beta in Hi.
      by apply np_take_out_of_range.
Qed.

Lemma buffer_getitem_padded_witness :
  ∃ out max_len,
    getitem Cases.after_first [1; -2] = Ok out
    ∧ Forall2 (λ i m, ∃ slot,
                 buffer Cases.after_first !! slot_of 2 i = Some slot
                 ∧ (length slot ≤ max_len)%nat
                 ∧ m = slot ++ replicate (max_len - length slot) (zero_row 1))
        [1; -2] out
    ∧ Exists (λ i, ∃ slot,
                buffer Cases.after_first !! slot_of 2 i = Some slot
                ∧ length slot = max_len) [1; -2].
Proof.
  apply (buffer_getitem_padded Cases.after_first [1; -2]).
  - done.
  - repeat constructor.
  - done.
  - repeat (apply Forall_cons_2 || apply Forall_nil_2);
      unfold len; simpl; lia.
Defined.

Lemma buffer_getitem_errors_witness :
  getitem Cases.after_first [] = Raise ValueError
  ∧ getitem Cases.after_first [0; 2] = Raise IndexError.
Proof.
  split.
  - by apply (buffer_getitem_errors Cases.after_first []).
  - apply (buffer_getitem_errors Cases.after_first [0; 2]).
    apply Exists_cons_tl, Exists_cons_hd. unfold len. simpl. lia.
Defined.

Lemma update_slot_mod self p i j l :
  i `mod` len self = j `mod` len self →
  update_slot self (p, i, l) = update_slot self (p, j, l).
Proof.
  intros Hij. unfold update_slot, py_mod.
  destruct (decide (len self = 0)); [done|]. by rewrite Hij.
Qed.

(** X7: indices that agree modulo the number of slots are
    interchangeable: [update_buffer] does the same with either list. *)
Theorem update_buffer_wraps self ixs ixs' post seq_len :
  Forall2 (λ i j, i `mod` len self = j `mod` len self) ixs ixs' →
  update_buffer self ixs post seq_len = update_buffer self ixs' post seq_len.
Proof.
  unfold update_buffer, triples. intros Hmod.
  assert (∀ n, Forall2 (λ i j, i `mod` n = j `mod` n) ixs ixs' →
          ∀ s, len s = n →
          for_each update_slot (zip (zip post ixs) seq_len) s
          = for_each update_slot (zip (zip post ixs') seq_len) s) as Hgen.
  { clear Hmod. intros n Hmod. revert post seq_len.
    induction Hmod as [|i j ixs ixs' Hij _ IH]; intros post seq_len s Hs.
    - by destruct post.
    - destruct post as [|p post]; [done|].
      destruct seq_len as [|l seq_len]; [done|].
      cbn [zip zip_with for_each].
      rewrite (update_slot_mod s p i j l) by (by rewrite Hs).
      destruct (update_slot s (p, j, l)) as [s'|e] eqn:Hstep; [|done].
      rewrite !bind_ret_l. apply IH.
      apply update_slot_lengths in Hstep as (Hb & _). unfold len in *.
      by rewrite Hb. }
  by apply (Hgen (len self)).
Qed.

Lemma update_buffer_wraps_witness :
  update_buffer Cases.fresh_buffer [0; 3] [Cases.post3; Cases.post1] [2; 1]
  = update_buffer Cases.fresh_buffer [2; -1] [Cases.post3; Cases.post1] [2; 1].
Proof.
  apply (update_buffer_wraps Cases.fresh_buffer [0; 3] [2; -1]).
  repeat (apply Forall2_cons_2 || apply Forall2_nil_2); reflexivity.
Defined.

Lemma Zsum_insert (l : list Z) i c x :
  l !! i = Some c → Zsum (<[i := x]> l) = Zsum l + x - c.
Proof.
  revert i. induction l as [|y l IH]; intros [|i]; try done.
  - intros [= ->]. cbn [list_insert insert]. rewrite !Zsum_cons. lia.
  - intros Hi. change (<[S i := x]> (y :: l)) with (y :: <[i := x]> l).
    rewrite !Zsum_cons, (IH i Hi). lia.
Qed.

(** X8: a call of [update_buffer] that completes raises the counters,
    taken together, by the number of triples, which is the length of
    the shortest of the three lists; slots that no triple addresses
    keep their content and their counter. *)
Theorem update_buffer_counts self ixs post seq_len self' :
  update_buffer self ixs post seq_len = Ok self' →
  Zsum (count self')
  = Zsum (count self)
    + Z.of_nat ((length ixs `min` length post) `min` length seq_len)
  ∧ ∀ j, Forall (λ i, slot_of (length (buffer self)) i ≠ j)
           (triples ixs post seq_len).*1.*2 →
         buffer self' !! j = buffer self !! j
         ∧ count self' !! j = count self !! j.
Proof.
  unfold update_buffer. intros Hrun.
  assert (length (triples ixs post seq_len)
          = ((length ixs `min` length post) `min` length seq_len)%nat) as <-.
  { unfold triples. rewrite !length_zip. lia. }
  revert self Hrun.
  induction (triples ixs post seq_len) as [|[[p i] l] ts IH];
    intros self Hrun; cbn [for_each] in Hrun.
  - injection Hrun as <-. split; [cbn; lia|done].
  - apply bind_Ok in Hrun as (s1 & Hstep & Hrest).
    destruct (IH _ Hrest) as [Hsum Hframe].
    destruct (update_slot_Ok _ _ _ _ _ Hstep)
      as (c & _ & _ & Hc & Hb & Hcnt & _).
    split.
    + rewrite Hsum, Hcnt, (Zsum_insert _ _ c) by done. cbn [length]. lia.
    + intros j [Hi Hothers]%Forall_cons. cbn [fst snd] in Hi.
      destruct (update_slot_lengths _ _ _ Hstep) as (Hlen & _).
      rewrite Hlen in Hframe. destruct (Hframe j Hothers) as [-> ->].
      unfold slot_of in Hi. fold (len self) in Hi.
      rewrite Hcnt. split.
      * case_decide; [|by rewrite Hb].
        destruct Hb as (slot & slot' & _ & _ & _ & ->).
        by rewrite list_lookup_insert_ne.
      * by rewrite list_lookup_insert_ne.
Qed.

Lemma update_buffer_counts_witness :
  Zsum (count Cases.after_first) = Zsum (count Cases.fresh_buffer) + 1
  ∧ buffer Cases.after_first !! 1%nat = buffer Cases.fresh_buffer !! 1%nat
  ∧ count Cases.after_first !! 1%nat = count Cases.fresh_buffer !! 1%nat.
Proof.
  destruct (update_buffer_counts Cases.fresh_buffer [0] [Cases.post3] [2]
              Cases.after_first eq_refl) as [Hsum Hframe].
  split; [exact Hsum|]. apply Hframe.
  repeat constructor. done.
Defined.

Lemma rows_upto_width dim p l : has_width dim p → has_width dim (rows_upto p l).
Proof.
  unfold has_width, rows_upto. intros Hp. case_decide; by apply Forall_take.
Qed.

Lemma assign_slot_width kind d slot value slot' :
  assign_slot kind slot value = Ok slot' →
  has_width d slot → has_width d value → has_width d slot'.
Proof.
  destruct kind; cbn [assign_slot]; [|by intros [= <-]].
  intros Hfits%np_copy_into_shape Hslot _. unfold has_width, fits in *.
  induction Hfits as [|t o slot slot' Ho _ IH]; [done|].
  apply Forall_cons in Hslot as [Ht Hslot].
  constructor; [congruence|by apply IH].
Qed.

Lemma update_slot_shape self pil self' :
  has_width (dim self) pil.1.1 → well_shaped self →
  update_slot self pil = Ok self' →
  well_shaped self' ∧ dim self' = dim self.
Proof.
  destruct pil as [[p i] l]. cbn [fst]. intros Hp Hshape.
  intros (c & _ & _ & _ & Hb & _ & Hdim & _)%update_slot_Ok.
  split; [|done]. unfold well_shaped. rewrite Hdim.
  case_decide; [|by rewrite Hb].
  destruct Hb as (slot & slot' & Hs & _ & Hslot' & ->).
  apply Forall_insert; [done|].
  apply (assign_slot_width _ _ _ _ _ Hslot'); [|by apply rows_upto_width].
  unfold well_shaped in Hshape. rewrite Forall_forall in Hshape.
  apply Hshape. by eapply list_elem_of_lookup_2.
Qed.

Lemma update_buffer_shape self ixs post seq_len self' :
  Forall (has_width (dim self)) post → well_shaped self →
  update_buffer self ixs post seq_len = Ok self' →
  well_shaped self' ∧ dim self' = dim self.
Proof.
  intros Hpost Hshape. unfold update_buffer.
  apply (for_each_invariant_in
    (λ s, well_shaped s ∧ dim s = dim self)
    (λ pil, has_width (dim self) pil.1.1)); [| |done].
  - intros s pil s' Hp [Hs Hd] Hstep. rewrite <-Hd in Hp.
    destruct (update_slot_shape _ _ _ Hp Hs Hstep) as [Hs' Hd'].
    split; [done|congruence].
  - apply Forall_forall. intros [[p i] l] Hin. cbn [fst].
    unfold triples in Hin. apply list_elem_of_lookup in Hin as [k Hk].
    apply lookup_zip_with_Some in Hk as (pi & l' & [= <- <-] & Hpi & _).
    apply lookup_zip_with_Some in Hpi as (p' & i' & [= <- <-] & Hp & _).
    rewrite Forall_forall in Hpost. apply Hpost.
    by eapply list_elem_of_lookup_2.
Qed.

Lemma has_width_fits d slot : ∀ value,
  has_width d slot → has_width d value → length value = length slot →
  fits slot value.
Proof.
  unfold has_width, fits.
  induction slot as [|t slot IH]; intros [|v value] Hs Hv Hlen; try done.
  apply Forall_cons in Hs as [Ht Hs]. apply Forall_cons in Hv as [Hv' Hv].
  constructor; [lia|]. apply IH; [done..|]. by injection Hlen.
Qed.

(** X9: what a refresh writes can be read back: after
    [update_buffer([i], [p], [l])] on a slot that is due for a refresh,
    reading index [i] returns the first [l] rows of [p], with no
    padding.  For a dense buffer, into which numpy copies with
    broadcasting, this is for an array [p] of at least [l] rows and a
    buffer whose rows have [dim] entries, so that what is copied has
    the shape of the slot. *)
Theorem update_then_getitem self i p l self' c :
  update_buffer self [i] [p] [l] = Ok self' →
  count self !! slot_of (length (buffer self)) i = Some c →
  c `mod` freq self = 0 →
  has_width (dim self) p →
  (buffer_layout self = Dense → enough_rows (p, i, l) ∧ well_shaped self) →
  0 ≤ dim self →
  - len self ≤ i < len self →
  getitem self' [i] = Ok [take (Z.to_nat l) p].
Proof.
  rewrite update_buffer_single.
  intros Hstep Hc Hr Hp Hdense Hdim Hi.
  destruct (update_slot_Ok _ _ _ _ _ Hstep)
    as (c' & _ & Hf & Hc' & Hslot & _ & Hd & _).
  unfold slot_of in Hc. fold (len self) in Hc.
  assert (c' = c) as -> by congruence.
  rewrite decide_True in Hslot by done.
  destruct Hslot as (slot & slot' & Hs & Hl & _ & _).
  assert (buffer_layout self = Dense → fits slot (take (Z.to_nat l) p))
    as Hfits.
  { intros [Hrows Hshape]%Hdense. unfold enough_rows in Hrows.
    cbn [fst snd] in Hrows. unfold well_shaped in Hshape.
    rewrite Forall_forall in Hshape.
    assert (has_width (dim self) slot) as Hw
      by (apply Hshape; by eapply list_elem_of_lookup_2).
    assert (has_width (dim self) (take (Z.to_nat l) p)) as Hw'
      by (by apply Forall_take).
    assert (length (take (Z.to_nat l) p) = length slot) as Hlen
      by (rewrite length_take; lia).
    by apply (has_width_fits (dim self)). }
  rewrite (update_slot_due self p i l c slot Hf Hc Hs Hr Hl Hfits) in Hstep.
  injection Hstep as <-. unfold getitem. cbn [list_comp].
  assert (np_take (buffer (with_content self
            (<[Z.to_nat (i `mod` len self) := take (Z.to_nat l) p]>
               (buffer self))
            (<[Z.to_nat (i `mod` len self) := c + 1]> (count self)))) i
          = Ok (take (Z.to_nat l) p)) as ->.
  { unfold np_take, py_index. cbn [with_content buffer].
    rewrite length_insert.
    fold (len self). rewrite decide_True by done.
    rewrite list_lookup_insert_eq; [done|]. by eapply lookup_lt_Some. }
  rewrite !bind_ret_l. cbn [fmap list_fmap np_max foldl].
  cbn [with_content dim].
  rewrite bind_ret_l, (np_zeros_nonneg _ _ Hdim), bind_ret_l.
  cbn [list_comp]. fold (zero_row (dim self)).
  rewrite assign_rows_padded by (by apply Forall_take).
  rewrite !bind_ret_l, Nat.sub_diag. cbn [replicate]. by rewrite app_nil_r.
Qed.

Lemma update_then_getitem_witness :
  getitem Cases.after_first [0] = Ok [take 2 Cases.post3].
Proof.
  apply (update_then_getitem Cases.fresh_buffer 0 Cases.post3 2
           Cases.after_first 0); try reflexivity; try done.
  repeat constructor.
Defined.

(** X10: on a buffer without slots, or with a refresh period of zero
    and a counter for every slot, any call of [update_buffer] that has
    a triple to process raises [ZeroDivisionError]. *)
Theorem update_buffer_zero_division self ixs post seq_len :
  buffer self = []
  ∨ (freq self = 0 ∧ length (count self) = length (buffer self)) →
  triples ixs post seq_len ≠ [] →
  update_buffer self ixs post seq_len = Raise ZeroDivisionError.
Proof.
  intros Hcase Hne. unfold update_buffer.
  destruct (triples ixs post seq_len) as [|[[p i] l] ts]; [done|].
  cbn [for_each]. unfold update_slot, py_mod, py_index.
  destruct Hcase as [Hb|[Hf Hlen]].
  - unfold len. by rewrite Hb.
  - destruct (decide (len self = 0)) as [|Hn]; [done|]. rewrite bind_ret_l.
    destruct (count self !! Z.to_nat (i `mod` len self)) as [c|] eqn:Hc.
    + rewrite bind_ret_l. by rewrite decide_True.
    + apply lookup_ge_None in Hc. unfold len in *.
      pose proof (Z.mod_pos_bound i (Z.of_nat (length (buffer self)))). lia.
Qed.

Lemma update_buffer_zero_division_witness :
  update_buffer (mk_prior_buffer 1 3 None Dense [] []) [0] [Cases.post1] [1]
  = Raise ZeroDivisionError
  ∧ update_buffer (mk_prior_buffer 1 0 None Dense [[[0%Qc]]] [0]) [0]
      [Cases.post1] [1]
    = Raise ZeroDivisionError.
Proof.
  split.
  - apply update_buffer_zero_division; [by left|done].
  - apply update_buffer_zero_division; [by right|done].
Defined.

End buffer_more.

(** ** prior_buffer: construction, persistence and reading together *)

#[global] Instance memfs_laws_more (data : Type)
  : FileSystemLawsMore (memfs data) data.
Proof.
  split.
  - intros s p. cbn. intros Hd. by rewrite Hd.
  - intros s p d s'. cbn. case_bool_decide; [done|]. intros [= <-]. cbn.
    rewrite bool_decide_true; [done|]. by rewrite lookup_insert_eq.
Qed.

Section storage_more.
Import PriorBuffer PriorBufferRead.
Context {value fs data : Type} `{FileSystem fs data}
        `{Pickle (layout * list matrix) data}.
Implicit Types w : @world value fs.

Lemma update_calls_shape calls self self' :
  posts_have_width (dim self) calls → well_shaped self →
  update_calls self calls = Ok self' →
  well_shaped self' ∧ dim self' = dim self.
Proof.
  intros Hposts Hshape.
  apply (for_each_invariant_in
    (λ s, well_shaped s ∧ dim s = dim self)
    (λ c, Forall (has_width (dim self)) c.1.2)); [|done..].
  intros s c s' Hc [Hs Hd] Hup. rewrite <-Hd in Hc.
  destruct (update_buffer_shape _ _ _ _ _ Hc Hs Hup) as [Hs' Hd'].
  split; [done|congruence].
Qed.

(** X11: a buffer that was zero-initialised and then refreshed, in any
    number of calls, from arrays whose rows have [dim] entries keeps
    rows of [dim] entries in every slot, and any non-empty list of
    indices in range can be read from it. *)
Theorem fresh_buffer_readable w inputs dim freq name init_path w' pb0 calls
    pb ixs :
  init w inputs dim freq name init_path = Ok (w', pb0) →
  path_missing w (derived_path name dim init_path) = true →
  update_calls pb0 calls = Ok pb →
  posts_have_width dim calls →
  ixs ≠ [] →
  Forall (λ i, - len pb ≤ i < len pb) ixs →
  well_shaped pb ∧ PriorBuffer.dim pb = dim ∧ succeeds (getitem pb ixs).
Proof.
  intros Hinit Hmiss Hcalls Hposts Hne Hrange.
  pose proof (init_two_branches w inputs dim freq name init_path) as Hbranch.
  cbv zeta in Hbranch. rewrite Hinit, Hmiss in Hbranch. symmetry in Hbranch.
  apply bind_Ok in Hbranch as (zeros & Hzeros & [= _ <-]).
  apply list_comp_Ok_Forall2 in Hzeros.
  assert (well_shaped
            {| PriorBuffer.dim := dim; PriorBuffer.freq := freq;
               path := derived_path name dim init_path;
               buffer_layout := np_asarray_layout zeros; buffer := zeros;
               count := replicate (length inputs) 0 |}) as Hshape0.
  { unfold well_shaped. cbn [PriorBuffer.dim buffer].
    apply Forall_forall. intros slot [k Hk]%list_elem_of_lookup.
    destruct (Forall2_lookup_r _ _ _ _ _ Hzeros Hk) as (r & _ & Hslot).
    unfold np_zeros in Hslot. case_decide; [done|]. injection Hslot as <-.
    apply Forall_replicate. rewrite length_replicate. lia. }
  destruct (update_calls_shape calls
              (mk_prior_buffer dim freq (derived_path name dim init_path)
                 (np_asarray_layout zeros) zeros
                 (replicate (length inputs) 0))
              pb Hposts Hshape0 Hcalls) as [Hshape Hd].
  cbn [PriorBuffer.dim] in Hd. split; [done|]. split; [done|].
  destruct (update_calls_lengths _ _ _ Hcalls) as [Hlen _].
  cbn [buffer] in Hlen.
  assert (0 ≤ dim) as Hdim.
  { destruct ixs as [|i ixs]; [done|]. apply Forall_cons in Hrange as [Hi _].
    unfold len in Hi. rewrite Hlen in Hi.
    destruct Hzeros as [|r slot ? ? Hslot _]; [cbn in Hi; lia|].
    unfold np_zeros in Hslot. case_decide; [done|lia]. }
  destruct (getitem_in_range pb ixs) as (out & ? & Hout & _);
    [by rewrite Hd|done..|].
  by exists out.
Qed.

(** X12: a buffer built without [init_path] has no path: [save] and
    [load] on it raise [TypeError]. *)
Theorem pathless_buffer_not_saved w inputs dim freq name w' pb w2 :
  init w inputs dim freq name None = Ok (w', pb) →
  save pb w2 = Raise TypeError ∧ load pb w2 = Raise TypeError.
Proof.
  intros Hinit.
  pose proof (init_two_branches w inputs dim freq name None) as Hbranch.
  cbv zeta in Hbranch. rewrite Hinit in Hbranch. cbn in Hbranch.
  symmetry in Hbranch.
  apply bind_Ok in Hbranch as (zeros & _ & [= _ <-]).
  by unfold save, load, the_path.
Qed.

(** X13: what [save] wrote is what construction finds: after a [save]
    that completes, building a buffer with the name, dimension and
    [init_path] that lead to the same path loads the saved slots, with
    all counters at zero, whatever the inputs. *)
Theorem save_then_init `{!FileSystemLaws fs data}
    `{!FileSystemLawsMore fs data} `{!PickleLaws (layout * list matrix) data}
    self w w' inputs dim freq name init_path :
  save self w = Ok w' →
  path self = derived_path name dim init_path →
  ∃ w'', init w' inputs dim freq name init_path
         = Ok (w'', {| PriorBuffer.dim := dim; PriorBuffer.freq := freq;
                       path := path self;
                       buffer_layout := buffer_layout self;
                       buffer := buffer self;
                       count := replicate (length inputs) 0 |}).
Proof.
  intros Hsave Hpath.
  destruct (save_then_load self self w w' Hsave eq_refl)
    as (p & lines & Hp & _ & Hload).
  assert (isfile (w_fs w') p = true) as Hfile.
  { unfold save, the_path in Hsave. rewrite Hp, bind_ret_l in Hsave.
    apply bind_Ok in Hsave as (s & Hwrite & (e' & _ & [= <-])%bind_Ok).
    cbn [w_fs]. by eapply write_then_isfile. }
  pose proof (init_two_branches w' inputs dim freq name init_path) as Hinit.
  cbv zeta in Hinit. rewrite <-Hpath, Hp in Hinit. cbn [path_missing] in Hinit.
  rewrite Hfile in Hinit. cbn [negb] in Hinit.
  rewrite (load_by_path _ self) in Hinit by (by rewrite Hp).
  rewrite Hload in Hinit. rewrite Hinit, Hp. by eexists.
Qed.

End storage_more.

Lemma fresh_buffer_readable_witness :
  well_shaped Cases.after_first
  ∧ PriorBuffer.dim Cases.after_first = 1
  ∧ succeeds (PriorBufferRead.getitem Cases.after_first [0; 1]).
Proof.
  apply (fresh_buffer_readable Cases.empty_world Cases.two_inputs 1 3 "prior"
           None Cases.empty_world Cases.fresh_buffer
           [([0], [Cases.post3], [2])] Cases.after_first [0; 1]);
    try reflexivity; try done.
  - repeat constructor.
  - repeat (apply Forall_cons_2 || apply Forall_nil_2);
      unfold PriorBuffer.len; simpl; lia.
Defined.

Lemma pathless_buffer_not_saved_witness :
  PriorBuffer.save Cases.fresh_buffer Cases.empty_world = Raise TypeError
  ∧ PriorBuffer.load Cases.fresh_buffer Cases.empty_world = Raise TypeError.
Proof.
  apply (pathless_buffer_not_saved Cases.empty_world Cases.two_inputs 1 3
           "prior" Cases.empty_world Cases.fresh_buffer Cases.empty_world).
  reflexivity.
Defined.

Lemma save_then_init_witness :
  ∃ w'',
    PriorBuffer.init Cases.saved_world Cases.two_inputs 1 3 "prior"
      (Some "priors")
    = Ok (w'', {| PriorBuffer.dim := 1; PriorBuffer.freq := 3;
                  PriorBuffer.path := Some "priors/prior_1";
                  PriorBuffer.buffer_layout := PriorBuffer.Dense;
                  PriorBuffer.buffer := [[[Cases.q 1]; [Cases.q 2]]];
                  PriorBuffer.count := [0; 0] |}).
Proof.
  apply (save_then_init Cases.saved_buffer Cases.empty_world
           Cases.saved_world Cases.two_inputs 1 3 "prior" (Some "priors"));
    reflexivity.
Defined.

(** ** experiment: the name of the directory *)

Section experiment_more.
Import Experiment.
Context {value fs data : Type} `{PyValue value} `{FileSystem fs data}.
Variable get_parser : parser value.

Lemma insert_sorted_perm (item : string * value) items :
  insert_sorted item items ≡ₚ item :: items.
Proof.
  induction items as [|x items IH]; cbn [insert_sorted]; [done|].
  destruct (String.leb item.1 x.1); [done|].
  rewrite IH. apply Permutation_swap.
Qed.

Lemma insert_sorted_hd (item x : string * value) items :
  by_key x item → HdRel by_key x items →
  HdRel by_key x (insert_sorted item items).
Proof.
  intros Hx Hhd. destruct items as [|y items]; cbn [insert_sorted].
  - by constructor.
  - destruct (String.leb item.1 y.1); constructor; [done|].
    by apply HdRel_inv in Hhd.
Qed.

Lemma insert_sorted_Sorted (item : string * value) items :
  Sorted by_key items → Sorted by_key (insert_sorted item items).
Proof.
  induction 1 as [|x items Hs IH Hhd]; cbn [insert_sorted].
  - by repeat constructor.
  - destruct (String.leb item.1 x.1) eqn:Hle.
    + constructor; [by constructor|]. by constructor.
    + constructor; [done|]. apply insert_sorted_hd; [|done].
      unfold by_key. destruct (String.leb_total item.1 x.1); congruence.
Qed.

Lemma sorted_spec (items : list (string * value)) :
  sorted items ≡ₚ items ∧ Sorted by_key (sorted items).
Proof.
  unfold sorted. induction items as [|x items [IHp IHs]]; cbn [foldr].
  - split; [done|constructor].
  - split; [|by apply insert_sorted_Sorted].
    by rewrite insert_sorted_perm, IHp.
Qed.

Lemma getattr_Ok (config : list (string * value)) key :
  succeeds (getattr config key)
  ↔ is_Some ((list_to_map config : gmap string value) !! key).
Proof.
  unfold getattr. destruct (_ !! key) as [v|]; split.
  - by eauto.
  - intros _. by exists v.
  - by intros [? [=]].
  - by intros [? [=]].
Qed.

Lemma add_key_piece self identifier item :
  is_Some ((list_to_map (config self) : gmap string value) !! item.1) →
  add_key self identifier item
  = Ok (identifier +:+ identifier_piece (config self) item).
Proof.
  intros [cur Hcur]. unfold add_key, getattr, identifier_piece.
  rewrite Hcur, !bind_ret_l. destruct (py_ne cur item.2).
  - by rewrite ?bind_ret_l.
  - by rewrite string_app_empty_r.
Qed.

Lemma add_keys_identifier self items : ∀ identifier,
  Forall (λ item, is_Some ((list_to_map (config self) : gmap string value)
                           !! item.1)) items →
  for_each (add_key self) items identifier
  = Ok (identifier +:+ identifier_of (config self) items).
Proof.
  induction items as [|item items IH]; intros identifier Hall.
  - cbn. by rewrite string_app_empty_r.
  - apply Forall_cons in Hall as [Hitem Hall]. cbn [for_each].
    rewrite (add_key_piece _ _ _ Hitem), bind_ret_l, (IH _ Hall).
    cbn [identifier_of foldr]. by rewrite string_app_assoc.
Qed.

Lemma add_key_outcome self identifier item :
  succeeds (add_key self identifier item)
  ∨ add_key self identifier item = Raise AttributeError.
Proof.
  unfold add_key, getattr.
  destruct (_ !! item.1) as [cur|]; [|by right].
  rewrite !bind_ret_l. left. destruct (py_ne cur item.2); by eexists.
Qed.

Lemma add_keys_missing self items : ∀ identifier,
  Exists (λ item, (list_to_map (config self) : gmap string value) !! item.1
                  = None) items →
  for_each (add_key self) items identifier = Raise AttributeError.
Proof.
  induction items as [|item items IH]; intros identifier Hex.
  - by apply Exists_nil in Hex.
  - cbn [for_each]. apply Exists_cons in Hex as [Hitem|Hex].
    + unfold add_key, getattr. by rewrite Hitem.
    + destruct (add_key_outcome self identifier item) as [[s Hs]|Hs];
        rewrite Hs; [|done].
      rewrite bind_ret_l. by apply IH.
Qed.

(** The defaults that the namespace of a group holds. *)
Lemma group_namespace_lookup self dests k :
  group_namespace self dests !! k
  = if decide (k ∈ dests)
    then Some (default py_none (default_config self !! k)) else None.
Proof.
  unfold group_namespace.
  assert (∀ d : gmap string value,
    foldl (λ d dest, <[dest := default py_none (default_config self !! dest)]> d)
      d dests !! k
    = if decide (k ∈ dests)
      then Some (default py_none (default_config self !! k)) else d !! k)
    as Hgen.
  { induction dests as [|n dests IH]; intros d; cbn [foldl].
    - destruct (decide (k ∈ [])) as [Hin|_]; [by apply elem_of_nil in Hin|done].
    - rewrite IH. destruct (decide (k ∈ dests)) as [Hin|Hnin];
        destruct (decide (k ∈ n :: dests)) as [Hin'|Hnin']; try done.
      + exfalso. apply Hnin'. by right.
      + apply elem_of_cons in Hin' as [->|?]; [|done].
        by rewrite lookup_insert_eq.
      + rewrite lookup_insert_ne; [done|]. intros ->. apply Hnin'. by left. }
  rewrite Hgen. by rewrite lookup_empty.
Qed.

Lemma make_default_config config prefix logfile k :
  default_config (make get_parser config prefix logfile) !! k
  = if decide (k ∈ config.*1) then Some (get_default get_parser k) else None.
Proof.
  unfold make. cbn [default_config].
  assert (∀ d : gmap string value,
    foldl (λ d key, <[key := get_default get_parser key]> d) d config.*1 !! k
    = if decide (k ∈ config.*1) then Some (get_default get_parser k)
      else d !! k) as Hgen.
  { induction (config.*1) as [|n keys IH]; intros d; cbn [foldl].
    - destruct (decide (k ∈ [])) as [Hin|_]; [by apply elem_of_nil in Hin|done].
    - rewrite IH. destruct (decide (k ∈ keys)) as [Hin|Hnin];
        destruct (decide (k ∈ n :: keys)) as [Hin'|Hnin']; try done.
      + exfalso. apply Hnin'. by right.
      + apply elem_of_cons in Hin' as [->|?]; [|done].
        by rewrite lookup_insert_eq.
      + rewrite lookup_insert_ne; [done|]. intros ->. apply Hnin'. by left. }
  rewrite Hgen. by rewrite lookup_empty.
Qed.

Lemma arg_groups_lookup self title m :
  arg_groups get_parser self !! title = Some m →
  ∃ dests, (title, dests) ∈ action_groups get_parser
           ∧ m = group_namespace self dests.
Proof.
  unfold arg_groups.
  assert (∀ d : gmap string (gmap string value),
    foldl (λ d group, <[group.1 := group_namespace self group.2]> d) d
      (action_groups get_parser) !! title = Some m →
    d !! title = Some m
    ∨ ∃ dests, (title, dests) ∈ action_groups get_parser
               ∧ m = group_namespace self dests) as Hgen.
  { induction (action_groups get_parser) as [|[t ds] groups IH]; intros d;
      cbn [foldl fst snd]; [by left|].
    intros [Hd|(dests & Hin & ->)]%IH.
    - destruct (decide (t = title)) as [->|Hne].
      + rewrite lookup_insert_eq in Hd. injection Hd as <-.
        right. exists ds. split; [by left|done].
      + rewrite lookup_insert_ne in Hd by done. by left.
    - right. exists dests. split; [by right|done]. }
  intros [Hempty|Hfound]%Hgen; [|done]. by rewrite lookup_empty in Hempty.
Qed.

(** The items of the [configs] namespace, as [experiment_dir] goes
    through them, when each of them is an attribute of the
    configuration. *)
Lemma configs_items config prefix logfile configs :
  arg_groups get_parser (make get_parser config prefix logfile) !! "configs"
  = Some configs →
  map_Forall (λ k _, k ∈ config.*1) configs →
  let items := sorted (map_to_list configs) in
  items ≡ₚ map_to_list configs
  ∧ Sorted by_key items
  ∧ Forall (λ item, item.2 = get_default get_parser item.1) items
  ∧ Forall (λ item, is_Some ((list_to_map config : gmap string value)
                             !! item.1)) items.
Proof.
  intros (dests & _ & ->)%arg_groups_lookup Hattrs items.
  destruct (sorted_spec (map_to_list
              (group_namespace (make get_parser config prefix logfile) dests)))
    as [Hperm Hsorted].
  split; [done|]. split; [done|].
  assert (∀ item, item ∈ items →
            item.1 ∈ config.*1
            ∧ item.2 = get_default get_parser item.1) as Hitems.
  { intros [k d] Hin. unfold items in Hin. rewrite Hperm in Hin.
    apply elem_of_map_to_list in Hin. cbn [fst snd].
    pose proof (Hattrs k d Hin) as Hk. cbn beta in Hk. split; [done|].
    rewrite group_namespace_lookup in Hin. case_decide; [|done].
    rewrite make_default_config, decide_True in Hin by done.
    by injection Hin as <-. }
  split; apply Forall_forall; intros item Hin;
    destruct (Hitems item Hin) as [Hk Hd]; [done|].
  destruct (_ !! item.1) eqn:Hnone; [by eexists|].
  by apply not_elem_of_list_to_map in Hnone.
Qed.

Lemma experiment_dir_make config prefix logfile :
  experiment_dir get_parser (make get_parser config prefix logfile)
  = (debug ← getattr config "debug";
     if py_truth debug then Ok "./"
     else
       match arg_groups get_parser (make get_parser config prefix logfile)
             !! "configs" with
       | None => Raise KeyError
       | Some configs =>
           identifier ← for_each
                          (add_key (make get_parser config prefix logfile))
                          (sorted (map_to_list configs)) "";
           Ok (os_path_join prefix identifier)
       end).
Proof. reflexivity. Qed.

(** X14: outside debug mode, when every option of the [configs] group
    is an attribute of the configuration, the directory is the prefix
    joined with an identifier made of the options in the order of their
    names, each adding its name and the string of its value when the
    value differs from the default of the parser, and nothing when it
    does not. *)
Theorem experiment_dir_identifier config prefix logfile debug configs :
  getattr config "debug" = Ok debug →
  py_truth debug = false →
  arg_groups get_parser (make get_parser config prefix logfile) !! "configs"
  = Some configs →
  map_Forall (λ k _, k ∈ config.*1) configs →
  ∃ items,
    items ≡ₚ map_to_list configs
    ∧ Sorted by_key items
    ∧ Forall (λ item, item.2 = get_default get_parser item.1) items
    ∧ experiment_dir get_parser (make get_parser config prefix logfile)
      = Ok (os_path_join prefix (identifier_of config items)).
Proof.
  intros Hdebug Htruth Hconfigs Hattrs.
  destruct (configs_items _ _ _ _ Hconfigs Hattrs)
    as (Hperm & Hsorted & Hdefaults & Hknown).
  exists (sorted (map_to_list configs)).
  split; [done|]. split; [done|]. split; [done|].
  rewrite experiment_dir_make.
  rewrite Hdebug, bind_ret_l, Htruth, Hconfigs.
  by rewrite (add_keys_identifier (make get_parser config prefix logfile)
                _ "" Hknown).
Qed.

(** X15: outside debug mode, when no option of the [configs] group
    differs from its default, the identifier is empty: the directory is
    the prefix joined with the empty string. *)
Theorem experiment_dir_all_default config prefix logfile debug configs :
  getattr config "debug" = Ok debug →
  py_truth debug = false →
  arg_groups get_parser (make get_parser config prefix logfile) !! "configs"
  = Some configs →
  map_Forall (λ k _, k ∈ config.*1) configs →
  (∀ k cur, (list_to_map config : gmap string value) !! k = Some cur →
            is_Some (configs !! k) →
            py_ne cur (get_default get_parser k) = false) →
  experiment_dir get_parser (make get_parser config prefix logfile)
  = Ok (os_path_join prefix "").
Proof.
  intros Hdebug Htruth Hconfigs Hattrs Hsame.
  destruct (configs_items _ _ _ _ Hconfigs Hattrs)
    as (Hperm & _ & Hdefaults & Hknown).
  rewrite experiment_dir_make.
  rewrite Hdebug, bind_ret_l, Htruth, Hconfigs.
  rewrite (add_keys_identifier (make get_parser config prefix logfile)
             _ "" Hknown), bind_ret_l.
  change (Experiment.config (make get_parser config prefix logfile))
    with config.
  do 2 f_equal. change ("" +:+ ?x) with x.
  assert (Forall (λ item, identifier_piece config item = "")
            (sorted (map_to_list configs))) as Hnone.
  { apply Forall_forall. intros [k d] Hitem.
    rewrite Forall_forall in Hdefaults, Hknown.
    destruct (Hknown _ Hitem) as [cur Hcur].
    pose proof (Hdefaults _ Hitem) as Hd. cbn [fst snd] in Hcur, Hd.
    rewrite Hperm in Hitem. apply elem_of_map_to_list in Hitem.
    unfold identifier_piece. cbn [fst snd]. rewrite Hcur, Hd.
    by rewrite (Hsame _ _ Hcur (ex_intro _ d Hitem)). }
  clear Hperm Hdefaults Hknown.
  induction Hnone as [|item items Hitem _ IH]; [done|].
  cbn [identifier_of foldr]. fold (identifier_of config items).
  by rewrite IH, Hitem.
Qed.

(** X16: outside debug mode, [experiment_dir] raises [KeyError] when the
    parser has no group titled [configs], and [AttributeError] when an
    option of that group is not an attribute of the configuration. *)
Theorem experiment_dir_errors config prefix logfile debug :
  getattr config "debug" = Ok debug →
  py_truth debug = false →
  let self := make get_parser config prefix logfile in
  (arg_groups get_parser self !! "configs" = None →
   experiment_dir get_parser self = Raise KeyError)
  ∧ (∀ configs k,
       arg_groups get_parser self !! "configs" = Some configs →
       is_Some (configs !! k) → k ∉ config.*1 →
       experiment_dir get_parser self = Raise AttributeError).
Proof.
  intros Hdebug Htruth self. subst self. split.
  - intros Hnone. rewrite experiment_dir_make.
    by rewrite Hdebug, bind_ret_l, Htruth, Hnone.
  - intros configs k Hconfigs [d Hk] Hmissing.
    rewrite experiment_dir_make.
    rewrite Hdebug, bind_ret_l, Htruth, Hconfigs.
    rewrite (add_keys_missing (make get_parser config prefix logfile));
      [done|].
    apply Exists_exists. exists (k, d). split.
    + destruct (sorted_spec (map_to_list configs)) as [Hperm _].
      rewrite Hperm. by apply elem_of_map_to_list.
    + cbn [fst]. by apply not_elem_of_list_to_map.
Qed.

End experiment_more.

Lemma experiment_dir_identifier_witness :
  ∃ items,
    items ≡ₚ map_to_list ({[ "debug" := PBool false; "seed" := PInt 0;
                             "prior_file" := PStr "prior";
                             "vocab_file" := PStr "vocab" ]}
                          : gmap string pyval)
    ∧ Sorted by_key items
    ∧ Forall (λ item, item.2 = get_default Cases.small_parser item.1) items
    ∧ Experiment.experiment_dir Cases.small_parser
        (Experiment.make Cases.small_parser Cases.small_config "runs" "log")
      = Ok (os_path_join "runs" (identifier_of Cases.small_config items)).
Proof.
  apply (experiment_dir_identifier Cases.small_parser Cases.small_config
           "runs" "log" (PBool false)).
  - reflexivity.
  - reflexivity.
  - reflexivity.
  - apply (bool_decide_unpack _). by vm_compute.
Defined.

Lemma experiment_dir_all_default_witness :
  Experiment.experiment_dir Cases.small_parser
    (Experiment.make Cases.small_parser
       [("debug", PBool false); ("seed", PInt 0);
        ("prior_file", PStr "prior"); ("vocab_file", PStr "vocab")]
       "runs" "log")
  = Ok "runs/".
Proof.
  apply (experiment_dir_all_default Cases.small_parser
           [("debug", PBool false); ("seed", PInt 0);
            ("prior_file", PStr "prior"); ("vocab_file", PStr "vocab")]
           "runs" "log" (PBool false)
           {[ "debug" := PBool false; "seed" := PInt 0;
              "prior_file" := PStr "prior"; "vocab_file" := PStr "vocab" ]}).
  - reflexivity.
  - reflexivity.
  - reflexivity.
  - apply (bool_decide_unpack _). by vm_compute.
  - intros k cur Hk%elem_of_list_to_map_2 _.
    repeat (apply elem_of_cons in Hk as [[= -> ->]|Hk]; [reflexivity|]).
    by apply elem_of_nil in Hk.
Defined.

Lemma experiment_dir_errors_witness :
  Experiment.experiment_dir (mk_parser pyval (λ _, PNone) [])
    (Experiment.make (mk_parser pyval (λ _, PNone) [])
       [("debug", PBool false)] "runs" "log")
  = Raise KeyError
  ∧ Experiment.experiment_dir Cases.small_parser
      (Experiment.make Cases.small_parser [("debug", PBool false)]
         "runs" "log")
    = Raise AttributeError.
Proof.
  split.
  - apply (experiment_dir_errors (mk_parser pyval (λ _, PNone) [])
             [("debug", PBool false)] "runs" "log" (PBool false));
      reflexivity.
  - destruct (experiment_dir_errors Cases.small_parser
                [("debug", PBool false)] "runs" "log" (PBool false))
      as [_ Hmissing]; [reflexivity..|].
    eapply (Hmissing _ "seed").
    + reflexivity.
    + by eexists.
    + by intros [=]%list_elem_of_singleton.
Defined.

(** ** experiment: debug mode *)

Section experiment_debug.
Import Experiment.
Context {value fs data : Type} `{PyValue value} `{FileSystem fs data}
        `{!FileSystemLaws fs data} `{!FileSystemLawsMore fs data}.
Variable get_parser : parser value.

Lemma makedirs_attr_isdir self attr s s' :
  makedirs_attr self attr s = Ok s' →
  ∃ p, (∀ s0, isdir s0 p = true → makedirs_attr self attr s0 = Ok s0)
       ∧ isdir s' p = true
       ∧ ∀ q, isdir s q = true → isdir s' q = true.
Proof.
  unfold makedirs_attr.
  destruct (getattr (config self) attr) as [v|] eqn:Hget; [|done].
  rewrite bind_ret_l. destruct (py_fspath v) as [p|] eqn:Hfs; [|done].
  intros Hmk. exists p. split; [|split].
  - intros s0 Hs0. rewrite bind_ret_l, Hfs. by apply makedirs_exist_ok.
  - by eapply makedirs_isdir.
  - intros q. by eapply makedirs_keeps.
Qed.

(** X17: in debug mode the experiment directory is [./], and
    construction neither looks for it nor creates it: it does what
    creating the two directories of the configuration does.  So, unlike
    outside debug mode, a construction that completed can be repeated:
    it completes again and leaves the file tree as it is. *)
Theorem experiment_debug_mode s config prefix logfile debug :
  getattr config "debug" = Ok debug →
  py_truth debug = true →
  let self := make get_parser config prefix logfile in
  experiment_dir get_parser self = Ok "./"
  ∧ init get_parser s config prefix logfile
    = (s2 ← _make_misc_dir self s; Ok (s2, self))
  ∧ ∀ s1 e1,
      init get_parser s config prefix logfile = Ok (s1, e1) →
      init get_parser s1 config prefix logfile = Ok (s1, e1).
Proof.
  intros Hdebug Htruth self. subst self.
  assert (∀ s0, init get_parser s0 config prefix logfile
                = (s2 ← _make_misc_dir
                          (make get_parser config prefix logfile) s0;
                   Ok (s2, make get_parser config prefix logfile)))
    as Hinit.
  { intros s0. unfold init. by rewrite Hdebug, bind_ret_l, Htruth. }
  split; [|split; [done|]].
  - rewrite experiment_dir_make. by rewrite Hdebug, bind_ret_l, Htruth.
  - intros s1 e1. rewrite !Hinit. unfold _make_misc_dir.
    intros (s2 & (sa & Hprior & Hvocab)%bind_Ok & [= <- <-])%bind_Ok.
    destruct (makedirs_attr_isdir _ _ _ _ Hprior) as (pf & Hpf & Hpf1 & _).
    destruct (makedirs_attr_isdir _ _ _ _ Hvocab) as (vf & Hvf & Hvf2 & Hk).
    rewrite (Hpf s2 (Hk _ Hpf1)), bind_ret_l.
    by rewrite (Hvf s2 Hvf2).
Qed.

End experiment_debug.

Lemma experiment_debug_mode_witness :
  ∃ s1 e1,
    Experiment.init Cases.small_parser Cases.empty_tree
      [("debug", PBool true); ("prior_file", PStr "prior");
       ("vocab_file", PStr "vocab")] "runs" "log" = Ok (s1, e1)
    ∧ Experiment.init Cases.small_parser s1
        [("debug", PBool true); ("prior_file", PStr "prior");
         ("vocab_file", PStr "vocab")] "runs" "log" = Ok (s1, e1).
Proof.
  eexists _, _. split; [reflexivity|].
  apply (experiment_debug_mode Cases.small_parser Cases.empty_tree
           [("debug", PBool true); ("prior_file", PStr "prior");
            ("vocab_file", PStr "vocab")] "runs" "log" (PBool true));
    reflexivity.
Defined.

(** ** The reporters *)

Lemma Qc_of_Z_le a b : a ≤ b → (Qc_of_Z a ≤ Qc_of_Z b)%Qc.
Proof. intros Hab. unfold Qcle. cbn. by rewrite <-Zle_Qle. Qed.

Lemma Qc_of_Z_0 : Qc_of_Z 0 = 0%Qc.
Proof. by apply Qc_is_canon. Qed.

Lemma Qc_of_Z_1 : Qc_of_Z 1 = 1%Qc.
Proof. by apply Qc_is_canon. Qed.




Section accuracy_more.
Import AccuracyReporter.




End accuracy_more.

Section f1_more.
Import F1Reporter.

(** What a sequence of updates leaves in an F1 reporter. *)
Lemma f1_updates_spec calls : ∀ self self',
  updates self calls = Ok self' →
  Forall same_shape calls
  ∧ right_count self' = right_count self + Zsum (weighted_matches <$> calls)
  ∧ instance_count self' = instance_count self + Zsum (mask_sum <$> calls)
  ∧ f1 self' = f1 self ∧ prec self' = prec self ∧ rec self' = rec self
  ∧ inv_tag_vocab self' = inv_tag_vocab self.
Proof.
  unfold updates.
  induction calls as [|[[pred label] mask] calls IH]; intros self self';
    cbn [for_each].
  - intros [= <-]. cbn. split; [done|]. repeat split; lia.
  - intros (s1 & Hstep & Hrest)%bind_Ok. cbn [fst snd] in Hstep.
    apply f1_update_Ok in Hstep as [Hshape ->].
    destruct (IH _ _ Hrest) as (Hall & Hr & Hi & Hf & Hp & Hrec & Hv).
    cbn [right_count instance_count f1 prec rec inv_tag_vocab] in *.
    split; [by constructor|]. rewrite !fmap_cons, !Zsum_cons.
    split; [lia|]. split; [lia|]. done.
Qed.


(** X24: an F1 reporter keeps the arrays of its last update only: after
    any sequence of updates that completes, [self.pred] and
    [self.label] are the predictions and the labels of the last call at
    the positions where the mask of that call is not zero, whatever the
    calls before it were; the three histories of scores are still
    empty. *)
Theorem f1_update_last_batch prev pred label mask vocab self :
  updates (init vocab) (prev ++ [(pred, label, mask)]) = Ok self →
  F1Reporter.pred self = Some (masked_in pred mask)
  ∧ F1Reporter.label self = Some (masked_in label mask)
  ∧ f1 self = [] ∧ prec self = [] ∧ rec self = [].
Proof.
  unfold updates. rewrite for_each_app.
  intros (s1 & Hprev & Hlast)%bind_Ok. cbn [for_each fst snd] in Hlast.
  apply bind_Ok in Hlast as (s2 & Hstep & [= <-]).
  apply f1_update_Ok in Hstep as [_ ->].
  destruct (f1_updates_spec _ _ _ Hprev) as (_ & _ & _ & Hf & Hp & Hr & _).
  cbn [F1Reporter.pred F1Reporter.label f1 prec rec].
  by rewrite Hf, Hp, Hr.
Qed.

End f1_more.


Lemma f1_update_last_batch_witness :
  ∃ self,
    F1Reporter.updates (F1Reporter.init ∅)
      [([1; 2], [1; 3], [1; 1]); ([4; 5; 6], [4; 5; 7], [1; 0; 1])] = Ok self
    ∧ F1Reporter.pred self = Some [4; 6]
    ∧ F1Reporter.label self = Some [4; 7]
    ∧ F1Reporter.f1 self = [] ∧ F1Reporter.prec self = []
    ∧ F1Reporter.rec self = [].
Proof.
  eexists. split; [reflexivity|].
  apply (f1_update_last_batch [([1; 2], [1; 3], [1; 1])]
           [4; 5; 6] [4; 5; 7] [1; 0; 1] ∅).
  reflexivity.
Defined.

(** ** get_kl_temp *)

Section schedule.
Context `{ExpLaws}.

Lemma np_minimum_le_r a b : (np_minimum a b ≤ b)%Qc.
Proof. unfold np_minimum. case_decide; [done|apply Qcle_refl]. Qed.

Lemma np_minimum_mono a a' b :
  (a ≤ a')%Qc → (np_minimum a b ≤ np_minimum a' b)%Qc.
Proof.
  intros Ha. unfold np_minimum.
  destruct (decide (a ≤ b)%Qc) as [Hab|Hab];
    destruct (decide (a' ≤ b)%Qc) as [Hab'|Hab']; try done.
  destruct Hab. by eapply Qcle_trans.
Qed.

(** X20: the annealing temperature is [0] at iteration 0 and never
    above [max_temp]; with a rate that is not negative it does not
    decrease from one iteration to a later one, and is not negative
    from iteration 0 on. *)
Theorem kl_temp_schedule rate i j max_temp :
  (0 ≤ rate)%Qc → (0 ≤ max_temp)%Qc → 0 ≤ i ≤ j →
  get_kl_temp rate 0 max_temp = 0%Qc
  ∧ (0 ≤ get_kl_temp rate i max_temp)%Qc
  ∧ (get_kl_temp rate i max_temp ≤ get_kl_temp rate j max_temp)%Qc
  ∧ (get_kl_temp rate j max_temp ≤ max_temp)%Qc.
Proof.
  intros Hrate Hmax [Hi Hij].
  assert (get_kl_temp rate 0 max_temp = 0%Qc) as Hzero.
  { unfold get_kl_temp. rewrite Qc_of_Z_0.
    replace (rate * 0)%Qc with 0%Qc by ring. rewrite np_exp_0.
    replace (1 - 1)%Qc with 0%Qc by ring.
    unfold np_minimum. by rewrite decide_True. }
  assert (∀ a b, a ≤ b →
            (get_kl_temp rate a max_temp ≤ get_kl_temp rate b max_temp)%Qc)
    as Hmono.
  { intros a b Hab. unfold get_kl_temp. apply np_minimum_mono.
    unfold Qcminus. apply Qcplus_le_compat; [|apply Qcle_refl].
    apply np_exp_mono. rewrite !(Qcmult_comm rate).
    apply Qcmult_le_compat_r; [|done]. by apply Qc_of_Z_le. }
  split; [done|]. split; [|split].
  - rewrite <-Hzero. by apply Hmono.
  - by apply Hmono.
  - apply np_minimum_le_r.
Qed.

End schedule.

#[global] Instance affine_exp_laws : @ExpLaws affine_exp.
Proof.
  split.
  - cbn. ring.
  - intros x y Hxy. cbn. apply Qcplus_le_compat; [apply Qcle_refl|done].
Qed.

Lemma kl_temp_schedule_witness :
  get_kl_temp (H := affine_exp) (Qc_of_Z 2) 0 (Qc_of_Z 5) = 0%Qc
  ∧ (0 ≤ get_kl_temp (H := affine_exp) (Qc_of_Z 2) 1 (Qc_of_Z 5))%Qc
  ∧ (get_kl_temp (H := affine_exp) (Qc_of_Z 2) 1 (Qc_of_Z 5)
     ≤ get_kl_temp (H := affine_exp) (Qc_of_Z 2) 3 (Qc_of_Z 5))%Qc
  ∧ (get_kl_temp (H := affine_exp) (Qc_of_Z 2) 3 (Qc_of_Z 5)
     ≤ Qc_of_Z 5)%Qc.
Proof.
  apply (kl_temp_schedule (H := affine_exp) (Qc_of_Z 2) 1 3 (Qc_of_Z 5)).
  - rewrite <-Qc_of_Z_0. by apply Qc_of_Z_le.
  - rewrite <-Qc_of_Z_0. by apply Qc_of_Z_le.
  - lia.
Defined.

(** ** evaluator *)

Section evaluator_more.
Import Evaluator.
Context {value : Type} {PV : PyValue value} {FF : FloatFormat}.

Implicit Types (self : @evaluator value) (batches : list batch).

Lemma perf_text_scores (a b c d : Qc) :
  perf_text {[ "acc" := a; "f1" := b; "prec" := c; "rec" := d ]}
  = scores_text a b c d.
Proof.
  unfold perf_text.
  replace (sorted_items {[ "acc" := a; "f1" := b; "prec" := c; "rec" := d ]})
    with [("acc", a); ("f1", b); ("prec", c); ("rec", d)] by reflexivity.
  cbn [fmap list_fmap join fst snd]. unfold scores_text.
  rewrite !string_app_assoc. reflexivity.
Qed.

Lemma scores_text_not_empty (a b c d : Qc) : scores_text a b c d ≠ "".
Proof. unfold scores_text. intros Heq. cbn in Heq. discriminate Heq. Qed.


(** The tracker of [evaluate] after the loop. *)
Lemma eval_stats_spec batches now0 :
  ∃ st, Tracker.updates
          (Tracker.reset (Tracker.mk_tracker ["log_loss"] ∅ 0%Qc 0%Qc) now0)
          (batch_update <$> batches) = Ok st
    ∧ tracks st ∧ Tracker.names st = ["log_loss"]
    ∧ Tracker.create_time st = now0
    ∧ Tracker.getitem st "log_loss" = mean_loss batches.
Proof.
  set (t0 := Tracker.reset (Tracker.mk_tracker ["log_loss"] ∅ 0%Qc 0%Qc) now0).
  assert (Tracker.init ["log_loss"] now0 = Ok t0) as Hinit by reflexivity.
  destruct (init_spec _ _ _ Hinit) as (Hn & Hc & Ht & Hz).
  assert (Forall2 (λ call v, Tracker.dict_get call.1 "log_loss" = Some v)
            (batch_update <$> batches) (log_loss <$> batches)) as Hvs.
  { induction batches as [|b bs IH]; [constructor|].
    rewrite !fmap_cons. constructor; [|exact IH].
    cbn [batch_update fst]. by rewrite dict_get_cons, decide_True. }
  assert (Forall (known_call (Tracker.names t0)) (batch_update <$> batches))
    as Hknown.
  { rewrite Hn. apply Forall_fmap, Forall_forall. intros b _.
    split; cbn [batch_update fst fmap list_fmap].
    - apply NoDup_singleton.
    - done. }
  destruct (updates_spec "log_loss" _ _ Hvs t0 0%Qc Ht Hknown)
    as (st & Hrun & Hn' & Ht' & Hv & Hc'); [apply Hz; set_solver|].
  exists st. split; [done|]. split; [done|]. split; [congruence|].
  split; [by rewrite (updates_create_time _ _ _ Hrun)|].
  assert ((batch_update <$> batches).*2 = batch_counts batches) as Hcounts.
  { unfold batch_counts. by rewrite <-list_fmap_compose. }
  rewrite Hcounts in Hv, Hc'.
  unfold Tracker.getitem, mean_loss. rewrite Hv, Hc', Hc. cbn [default].
  replace (0 + Tracker.total_count (batch_counts batches))%Qc
    with (Tracker.total_count (batch_counts batches)) by ring.
  replace (0 + Tracker.weighted_sum
                 (zip (log_loss <$> batches) (batch_counts batches)))%Qc
    with (Tracker.weighted_sum
            (zip (log_loss <$> batches) (batch_counts batches))) by ring.
  done.
Qed.

(** The loop of [evaluate] runs the reporter and the tracker side by
    side. *)
Lemma evaluate_loop self batches :
  succeeds (Experiment.getattr (Experiment.config (expe self)) "vb_temp") →
  ∀ rep st rep' st',
  for_each (λ r b, reporter_update r (pred b) (label b) (mask b)) batches rep
  = Ok rep' →
  Tracker.updates st (batch_update <$> batches) = Ok st' →
  for_each (evaluate_batch self) batches (rep, st) = Ok (rep', st').
Proof.
  intros [temp Htemp]. induction batches as [|b bs IH]; intros rep st rep' st'.
  - cbn. by intros [= ->] [= ->].
  - unfold Tracker.updates. rewrite fmap_cons. cbn [for_each].
    intros (r1 & Hr1 & Hr)%bind_Ok (st1 & Hst1 & Hst)%bind_Ok.
    cbn [batch_update fst snd] in Hst1.
    assert (evaluate_batch self (rep, st) b = Ok (r1, st1)) as ->.
    { unfold evaluate_batch. rewrite Htemp, bind_ret_l. cbn [fst snd].
      by rewrite Hr1, bind_ret_l, Hst1, bind_ret_l. }
    rewrite bind_ret_l. by apply IH.
Qed.

(** The reporter of the accuracy variant over the minibatches. *)
Lemma accuracy_loop batches : ∀ r r',
  AccuracyReporter.updates r (batch_arrays <$> batches) = Ok r' →
  for_each (λ r b, reporter_update r (pred b) (label b) (mask b)) batches
    (OfAccuracy r) = Ok (OfAccuracy r').
Proof.
  induction batches as [|b bs IH]; intros r r'.
  - cbn. by intros [= ->].
  - unfold AccuracyReporter.updates. rewrite fmap_cons. cbn [for_each].
    intros (r1 & Hr1 & Hr)%bind_Ok. cbn [batch_arrays fst snd] in Hr1.
    cbn [reporter_update]. rewrite Hr1, !bind_ret_l. by apply IH.
Qed.

(** [evaluate] from the end of its loop on. *)
Lemma evaluate_after_loop self batches now0 now1 flag rep st perf r lines :
  Experiment.getattr (Experiment.config (expe self)) "f1_score" = Ok flag →
  for_each (evaluate_batch self) batches
    (if py_truth flag then OfF1 (F1Reporter.init (inv_tag_vocab self))
     else OfAccuracy AccuracyReporter.init,
     Tracker.reset (Tracker.mk_tracker ["log_loss"] ∅ 0%Qc 0%Qc) now0)
  = Ok (rep, st) →
  reporter_report rep = Ok (perf, r) →
  tracks st → Tracker.names st = ["log_loss"] →
  Tracker.create_time st = now0 →
  perf_text perf ≠ "" →
  Experiment.log (expe self) = Some lines →
  evaluate self batches now0 now1
  = Ok ({| Experiment.config := Experiment.config (expe self);
           Experiment.experiments_prefix :=
             Experiment.experiments_prefix (expe self);
           Experiment.logfile_name := Experiment.logfile_name (expe self);
           Experiment.default_config := Experiment.default_config (expe self);
           Experiment.log :=
             Some (lines ++ [evaluation_line (perf_text perf)
                               (Tracker.getitem st "log_loss")
                               (now1 - now0)%Qc]) |},
        perf, r).
Proof.
  intros Hflag Hloop Hrep Ht Hn Hct Htext Hlog.
  unfold evaluate.
  replace (Tracker.init ["log_loss"] now0)
    with (Ok (Tracker.reset (Tracker.mk_tracker ["log_loss"] ∅ 0%Qc 0%Qc)
                now0)) by reflexivity.
  rewrite bind_ret_l, Hflag, bind_ret_l. cbv zeta.
  rewrite Hloop, bind_ret_l. cbn [fst snd]. rewrite Hrep, bind_ret_l.
  cbn [fst snd]. unfold TrackerText.summarize.
  rewrite bool_decide_true by done.
  rewrite summarize_loop; [|done|rewrite Hn; by repeat constructor].
  rewrite bind_ret_l, Hn, Hct. unfold Experiment.log_info. rewrite Hlog.
  rewrite bind_ret_l. do 4 f_equal.
  unfold evaluation_line, summary_body. cbn [foldr].
  rewrite !string_app_assoc. reflexivity.
Qed.


(** X21: with [f1_score] off, on an entered experiment and minibatches
    whose arrays have matching sizes, [evaluate] returns; the accuracy
    it returns, in [perf] and as [res], is that of all minibatches
    together, the other three scores are [0], and the log gains one
    line: the four scores in the order of their names, the mean loss
    weighted with the minibatches' mask sums, and the elapsed time.
    [vb_temp] is read only when there is a minibatch. *)
Theorem evaluate_reports_accuracy self batches now0 now1 flag lines :
  Experiment.getattr (Experiment.config (expe self)) "f1_score" = Ok flag →
  py_truth flag = false →
  (batches ≠ [] →
   succeeds (Experiment.getattr (Experiment.config (expe self)) "vb_temp")) →
  Forall (λ b, same_shape (batch_arrays b)) batches →
  Experiment.log (expe self) = Some lines →
  ∃ expe',
    evaluate self batches now0 now1
    = Ok (expe',
          {[ "acc" := data_accuracy batches; "f1" := 0%Qc;
             "prec" := 0%Qc; "rec" := 0%Qc ]},
          Accuracy (data_accuracy batches))
    ∧ Experiment.config expe' = Experiment.config (expe self)
    ∧ Experiment.log expe'
      = Some (lines ++ [evaluation_line
                          (scores_text (data_accuracy batches) 0 0 0)
                          (mean_loss batches) (now1 - now0)%Qc]).
Proof.
  intros Hflag Hfalse Htemp Hshape Hlog.
  destruct (eval_stats_spec batches now0) as (st & Hrun & Ht & Hn & Hct & Hmean).
  destruct (accuracy_updates_spec (batch_arrays <$> batches)
              (proj2 (Forall_fmap _ _ _) Hshape) AccuracyReporter.init)
    as (r' & Hr & Hright & Hinst).
  assert (accuracy (AccuracyReporter.right_count r')
            (AccuracyReporter.instance_count r') = data_accuracy batches)
    as Hacc.
  { rewrite Hright, Hinst. cbn [AccuracyReporter.init
      AccuracyReporter.right_count AccuracyReporter.instance_count].
    by rewrite !Z.add_0_l. }
  assert (for_each (evaluate_batch self) batches
            (OfAccuracy AccuracyReporter.init,
             Tracker.reset (Tracker.mk_tracker ["log_loss"] ∅ 0%Qc 0%Qc) now0)
          = Ok (OfAccuracy r', st)) as Hloop.
  { destruct batches as [|b bs].
    - cbn in Hrun, Hr. injection Hrun as <-. injection Hr as <-. done.
    - apply evaluate_loop; [by apply Htemp|by apply accuracy_loop|done]. }
  pose proof (evaluate_after_loop self batches now0 now1 flag (OfAccuracy r')
                st (AccuracyReporter.report r').1
                (Accuracy (AccuracyReporter.report r').2) lines Hflag) as Hev.
  rewrite Hfalse in Hev. specialize (Hev Hloop eq_refl Ht Hn Hct).
  cbn [fst snd AccuracyReporter.report] in Hev. rewrite Hacc in Hev.
  rewrite perf_text_scores, Hmean in Hev.
  eexists. split; [apply Hev; [apply scores_text_not_empty|done]|].
  by split.
Qed.

(** X23: on an experiment that has not been entered, [evaluate] does
    not return, whatever the data and the configuration: the logger it
    writes to is set by [__enter__] only. *)
Theorem evaluate_needs_entered self batches now0 now1 :
  Experiment.log (expe self) = None →
  ¬ succeeds (evaluate self batches now0 now1).
Proof.
  intros Hlog [out Hout]. unfold evaluate in Hout.
  apply bind_Ok in Hout as (st0 & _ & Hout).
  apply bind_Ok in Hout as (flag & _ & Hout). cbv zeta in Hout.
  apply bind_Ok in Hout as (state & _ & Hout).
  apply bind_Ok in Hout as (o & _ & Hout).
  apply bind_Ok in Hout as (summary & _ & Hout).
  apply bind_Ok in Hout as (e & He & _).
  unfold Experiment.log_info in He. by rewrite Hlog in He.
Qed.

End evaluator_more.

Lemma evaluate_reports_accuracy_witness :
  ∃ expe',
    Evaluator.evaluate
      (Evaluator.mk_evaluator ∅ EvalCases.plain_expe)
      EvalCases.two_batches 0%Qc 1%Qc
    = Ok (expe',
          {[ "acc" := data_accuracy EvalCases.two_batches; "f1" := 0%Qc;
             "prec" := 0%Qc; "rec" := 0%Qc ]},
          Evaluator.Accuracy (data_accuracy EvalCases.two_batches))
    ∧ Experiment.config expe' = Experiment.config EvalCases.plain_expe
    ∧ Experiment.log expe'
      = Some [evaluation_line
                (scores_text (data_accuracy EvalCases.two_batches) 0 0 0)
                (mean_loss EvalCases.two_batches) (1 - 0)%Qc].
Proof.
  apply (evaluate_reports_accuracy
           (Evaluator.mk_evaluator ∅ EvalCases.plain_expe)
           EvalCases.two_batches 0%Qc 1%Qc (PBool false) []).
  - reflexivity.
  - reflexivity.
  - intros _. by exists (PInt 1).
  - repeat constructor.
  - reflexivity.
Defined.

Lemma evaluate_needs_entered_witness :
  ¬ succeeds (Evaluator.evaluate
                (Evaluator.mk_evaluator ∅ EvalCases.closed_expe)
                EvalCases.two_batches 0%Qc 1%Qc).
Proof.
  apply (evaluate_needs_entered
           (Evaluator.mk_evaluator ∅ EvalCases.closed_expe)
           EvalCases.two_batches 0%Qc 1%Qc).
  reflexivity.
Defined.
